(** * Normalizing flows inside a variational auto-encoder (HW3/Q2.ipynb)

    A shallow embedding of the notebook's flow classes ([PlanarFlow],
    [RadialFlow]), of [NormalizingFlow] and of the two [latent] methods
    ([VAE], [VAENormalizingFlow]), with the properties the specification
    states about them; then of the head [self.sigma] of the auto-encoder, of
    the binary reconstruction loss and of [plot_batch], with further
    properties of all of these.

    Conventions of the embedding.
    - Tensor elements are real numbers: the arithmetic of the tensor runtime
      is idealised ([ln], [/] and [sqrt] are the total functions of the real
      library), so a statement about a value is a statement about the formula
      the code evaluates.
    - A tensor is a shape with an indexing function.  The flows and the
      latent steps only use matrices, vectors of shape [(n,)] and one-element
      tensors; a vector is held as a single row, which is how broadcasting
      aligns it with a matrix.  A batch of images has four dimensions.
    - An operation of the runtime that raises returns [None].
    - Python objects that are mutated (the list behind [self.log_det]) live in
      a store; a method that assigns an attribute of [self] returns the new
      [self]. *)

From Stdlib Require Import Reals Lra Lia ZArith.
From stdpp Require Import base option list gmap.

Open Scope R_scope.

(** ** Sums and vectors *)

Definition vsum (v : list R) : R := foldr Rplus 0 v.

Definition vdot (a b : list R) : R := vsum (zip_with Rmult a b).

Definition vnorm (v : list R) : R := sqrt (vsum ((λ x, x * x) <$> v)).

(** ** Tensors *)

Record Tensor := mkTensor {
  size0 : nat;
  size1 : nat;
  elem : nat → nat → R
}.

Definition shape (t : Tensor) : nat * nat := (size0 t, size1 t).

Definition row (t : Tensor) (i : nat) : list R :=
  elem t i <$> seq 0 (size1 t).

Definition col (t : Tensor) (j : nat) : list R :=
  (λ i, elem t i j) <$> seq 0 (size0 t).

Definition tolist (t : Tensor) : list (list R) :=
  row t <$> seq 0 (size0 t).

(** ** The tensor runtime *)

Module Torch.

(** [torch.tensor(rows)] for a nested list with at least one row. *)
Definition tensor (rows : list (list R)) : Tensor :=
  mkTensor (length rows) (length (default [] (head rows)))
           (λ i j, nth j (nth i rows []) 0).

(** A vector of shape [(n,)], held as one row. *)
Definition tensor1 (v : list R) : Tensor := tensor [v].

(** [torch.Tensor(n0, n1)]: storage of the given sizes; a negative size
    raises.  The content is arbitrary until it is written. *)
Definition Tensor_ (n0 n1 : Z) : option Tensor :=
  if decide (0 ≤ n0 ∧ 0 ≤ n1)%Z
  then Some (mkTensor (Z.to_nat n0) (Z.to_nat n1) (λ _ _, 0))
  else None.

(** [torch.Tensor(n)], a vector. *)
Definition Tensor_1 (n : Z) : option Tensor := Tensor_ 1 n.

Definition zeros (n : nat) : Tensor := mkTensor 1 n (λ _ _, 0).
Definition ones (n : nat) : Tensor := mkTensor 1 n (λ _ _, 1).

(** *** Broadcasting *)

Definition broadcast_dim (m n : nat) : option nat :=
  if decide (m = n) then Some m
  else if decide (m = 1%nat) then Some n
  else if decide (n = 1%nat) then Some m
  else None.

Definition expand_index (m i : nat) : nat :=
  if decide (m = 1%nat) then 0%nat else i.

Definition expand (t : Tensor) (i j : nat) : R :=
  elem t (expand_index (size0 t) i) (expand_index (size1 t) j).

Definition elementwise2 (f : R → R → R) (a b : Tensor) : option Tensor :=
  r ← broadcast_dim (size0 a) (size0 b);
  c ← broadcast_dim (size1 a) (size1 b);
  Some (mkTensor r c (λ i j, f (expand a i j) (expand b i j))).

Definition add := elementwise2 Rplus.
Definition sub := elementwise2 Rminus.
Definition mul := elementwise2 Rmult.

(** *** Element-wise functions and operations with a Python number *)

Definition tmap (f : R → R) (t : Tensor) : Tensor :=
  mkTensor (size0 t) (size1 t) (λ i j, f (elem t i j)).

Definition tanh := tmap Rtrigo_def.tanh.
Definition log := tmap ln.
Definition exp := tmap Rtrigo_def.exp.
Definition abs := tmap Rabs.
Definition reciprocal := tmap Rinv.
Definition pow (t : Tensor) (n : Z) := tmap (λ x, powerRZ x n) t.

(** [c + t], [t + c], [c - t], [t - c], [c * t], [c / t] for a number [c]. *)
Definition scalar_add (c : R) := tmap (λ x, c + x).
Definition add_scalar (t : Tensor) (c : R) := tmap (λ x, x + c) t.
Definition scalar_sub (c : R) := tmap (λ x, c - x).
Definition sub_scalar (t : Tensor) (c : R) := tmap (λ x, x - c) t.
Definition scalar_mul (c : R) := tmap (λ x, c * x).
Definition scalar_div (c : R) := tmap (λ x, c / x).

(** *** Matrices *)

(** [a.t()] *)
Definition t_ (a : Tensor) : Tensor :=
  mkTensor (size1 a) (size0 a) (λ i j, elem a j i).

(** [torch.mm(a, b)] *)
Definition mm (a b : Tensor) : option Tensor :=
  if decide (size1 a = size0 b)
  then Some (mkTensor (size0 a) (size1 b) (λ i j, vdot (row a i) (col b j)))
  else None.

(** [F.linear(input, weight, bias)] is [input @ weight.t() + bias]. *)
Definition linear (input weight bias : Tensor) : option Tensor :=
  m ← mm input (t_ weight);
  add m bias.

(** [torch.norm(a, dim=1)], a vector with one entry per row of [a]. *)
Definition norm_dim1 (a : Tensor) : Tensor :=
  mkTensor 1 (size0 a) (λ _ i, vnorm (row a i)).

(** [v.unsqueeze(1)] of a vector [v]: shape [(n,)] becomes [(n, 1)]. *)
Definition unsqueeze1 (v : Tensor) : Tensor :=
  mkTensor (size1 v) 1 (λ i _, elem v 0 i).

(** [torch.sum(a)] and [a.sum()] *)
Definition sum (a : Tensor) : R := vsum (vsum <$> tolist a).

(** [torch.cat(ts)] along the first dimension; an empty list raises, and so
    do tensors of different widths. *)
Definition stack (a b : Tensor) : option Tensor :=
  if decide (size1 a = size1 b)
  then Some (mkTensor (size0 a + size0 b) (size1 a)
               (λ i j, if decide (i < size0 a)%nat then elem a i j
                       else elem b (i - size0 a) j))
  else None.

Fixpoint cat (ts : list Tensor) : option Tensor :=
  match ts with
  | [] => None
  | [a] => Some a
  | a :: ts' => b ← cat ts'; stack a b
  end.

End Torch.

(** ** The Python store, the random generator and the monad of statements *)

Module Python.

(** [heap] holds the list objects; [uniform] and [normal] are the draws the
    generator will hand out next, for [uniform_(-0.01, 0.01)] and for
    standard normal samples. *)
Record World := mkWorld {
  heap : gmap nat (list Tensor);
  uniform : nat → R;
  normal : nat → R
}.

Definition set_heap (w : World) (h : gmap nat (list Tensor)) : World :=
  mkWorld h (uniform w) (normal w).

Definition Py (A : Type) : Type := World → option (A * World).

Definition ret {A} (a : A) : Py A := λ w, Some (a, w).

Definition bind {A B} (c : Py A) (k : A → Py B) : Py B :=
  λ w, match c w with
       | Some (a, w') => k a w'
       | None => None
       end.

(** The result of an operation that may raise. *)
Definition lift {A} (o : option A) : Py A :=
  λ w, match o with Some a => Some (a, w) | None => None end.

(** [[]]: a new list object. *)
Definition new_list : Py nat :=
  λ w, let l := fresh (dom (heap w)) in
       Some (l, set_heap w (<[l := []]> (heap w))).

(** [l.append(v)] *)
Definition append (l : nat) (v : Tensor) : Py unit :=
  λ w, match heap w !! l with
       | Some vs => Some ((), set_heap w (<[l := vs ++ [v]]> (heap w)))
       | None => None
       end.

(** The content of the list object [l]. *)
Definition items (l : nat) : Py (list Tensor) :=
  λ w, match heap w !! l with
       | Some vs => Some (vs, w)
       | None => None
       end.

Definition len {A} (l : list A) : Z := Z.of_nat (length l).

Definition range (n : Z) : list nat := seq 0 (Z.to_nat n).

(** [for x in xs: body], where [s] is what the body assigns. *)
Fixpoint for_ {A S} (xs : list A) (body : A → S → Py S) (s : S) : Py S :=
  match xs with
  | [] => ret s
  | x :: xs' => bind (body x s) (for_ xs' body)
  end.

End Python.

Import Python.

Notation "'let*' x ':=' c 'in' k" := (bind c (λ x, k))
  (at level 10, x pattern, c at level 100, k at level 200, only parsing).

(** ** Random tensors *)

(** [t.uniform_(-0.01, 0.01)]: [t] is overwritten, row by row, with the next
    draws of the generator. *)
Definition uniform_ (t : Tensor) : Py Tensor :=
  λ w, Some (mkTensor (size0 t) (size1 t)
               (λ i j, uniform w (i * size1 t + j)%nat),
             mkWorld (heap w)
               (λ k, uniform w (size0 t * size1 t + k)%nat) (normal w)).

Module Distrib.

(** [distrib.Normal(loc, scale)] for two vectors, which are broadcast. *)
Record Normal := mkNormal { loc : Tensor; scale : Tensor; batch_shape : nat }.

Definition Normal_ (loc scale : Tensor) : option Normal :=
  n ← Torch.broadcast_dim (size1 loc) (size1 scale);
  Some (mkNormal loc scale n).

(** [q.sample((n,))]: [n] rows of [loc + scale * eps] with [eps] standard
    normal. *)
Definition sample (q : Normal) (n : nat) : Py Tensor :=
  λ w, Some (mkTensor n (batch_shape q)
               (λ i j, Torch.expand (loc q) 0 j
                       + Torch.expand (scale q) 0 j
                         * normal w (i * batch_shape q + j)%nat),
             mkWorld (heap w) (uniform w)
               (λ k, normal w (n * batch_shape q + k)%nat)).

End Distrib.

(** ** The flows *)

Module Flow.

(** [for param in self.parameters(): param.data.uniform_(-0.01, 0.01)] *)
Definition init_parameters (parameters : list Tensor) : Py (list Tensor) :=
  for_ parameters
    (λ param done, let* p := uniform_ param in ret (done ++ [p])) [].

End Flow.

Module PlanarFlow.

Record t := mk { weight : Tensor; scale : Tensor; bias : Tensor }.

Definition __init__ (dim : Z) : Py t :=
  let* weight := lift (Torch.Tensor_ 1 dim) in
  let* scale := lift (Torch.Tensor_ 1 dim) in
  let* bias := lift (Torch.Tensor_1 1) in
  let* params := Flow.init_parameters [weight; scale; bias] in
  match params with
  | [weight; scale; bias] => ret (mk weight scale bias)
  | _ => lift None
  end.

Definition _call (self : t) (z : Tensor) : option Tensor :=
  f_z ← Torch.linear z (weight self) (bias self);
  s ← Torch.mul (scale self) (Torch.tanh f_z);
  Torch.add z s.

Definition log_abs_det_jacobian (self : t) (z : Tensor) : option Tensor :=
  f_z ← Torch.linear z (weight self) (bias self);
  psi ← Torch.mul (Torch.scalar_sub 1 (Torch.pow (Torch.tanh f_z) 2))
                  (weight self);
  m ← Torch.mm psi (Torch.t_ (scale self));
  let det_grad := Torch.scalar_add 1 m in
  Some (Torch.log (Torch.add_scalar (Torch.abs det_grad) 1e-9)).

End PlanarFlow.

Module RadialFlow.

Record t := mk { z0 : Tensor; alpha : Tensor; beta : Tensor; dim : Z }.

Definition __init__ (dim : Z) : Py t :=
  let* z0 := lift (Torch.Tensor_ 1 dim) in
  let* alpha := lift (Torch.Tensor_1 1) in
  let* beta := lift (Torch.Tensor_1 1) in
  let* params := Flow.init_parameters [z0; alpha; beta] in
  match params with
  | [z0; alpha; beta] => ret (mk z0 alpha beta dim)
  | _ => lift None
  end.

Definition _call (self : t) (z : Tensor) : option Tensor :=
  d ← Torch.sub z (z0 self);
  let r := Torch.unsqueeze1 (Torch.norm_dim1 d) in
  ar ← Torch.add (alpha self) r;
  let h := Torch.scalar_div 1 ar in
  bh ← Torch.mul (beta self) h;
  d' ← Torch.sub z (z0 self);
  m ← Torch.mul bh d';
  Torch.add z m.

(** [- 1 / (self.alpha + r) ** 2] is read by Python as [(-1) / (...) ** 2]. *)
Definition log_abs_det_jacobian (self : t) (z : Tensor) : option Tensor :=
  d ← Torch.sub z (z0 self);
  let r := Torch.unsqueeze1 (Torch.norm_dim1 d) in
  ar ← Torch.add (alpha self) r;
  let h := Torch.scalar_div 1 ar in
  ar' ← Torch.add (alpha self) r;
  let hp := Torch.scalar_div (-1) (Torch.pow ar' 2) in
  bh ← Torch.mul (beta self) h;
  let p := Torch.sub_scalar (Torch.pow (Torch.scalar_add 1 bh) (dim self)) 1 in
  bhp ← Torch.mul (beta self) hp;
  bhpr ← Torch.mul bhp r;
  s ← Torch.add (Torch.scalar_add 1 bh) bhpr;
  det_grad ← Torch.mul p s;
  Some (Torch.log (Torch.add_scalar (Torch.abs det_grad) 1e-9)).

End RadialFlow.

(** An instance of a subclass of [Flow], and the classes themselves as they
    are listed in [blocks]. *)
Inductive flow :=
  | Planar (f : PlanarFlow.t)
  | Radial (f : RadialFlow.t).

Inductive flow_class := PlanarFlow_class | RadialFlow_class.

(** [b_flow(dim)] *)
Definition instantiate (b_flow : flow_class) (dim : Z) : Py flow :=
  match b_flow with
  | PlanarFlow_class => let* f := PlanarFlow.__init__ dim in ret (Planar f)
  | RadialFlow_class => let* f := RadialFlow.__init__ dim in ret (Radial f)
  end.


(** [f(z)]: [Transform.__call__] hands over to [_call]. *)
Definition call (f : flow) (z : Tensor) : option Tensor :=
  match f with
  | Planar f => PlanarFlow._call f z
  | Radial f => RadialFlow._call f z
  end.

Definition log_abs_det_jacobian (f : flow) (z : Tensor) : option Tensor :=
  match f with
  | Planar f => PlanarFlow.log_abs_det_jacobian f z
  | Radial f => RadialFlow.log_abs_det_jacobian f z
  end.

(** [self.parameters()] of a flow: its parameters in the order in which the
    constructor registers them. *)
Definition parameters (f : flow) : list Tensor :=
  match f with
  | Planar p => [PlanarFlow.weight p; PlanarFlow.scale p; PlanarFlow.bias p]
  | Radial r => [RadialFlow.z0 r; RadialFlow.alpha r; RadialFlow.beta r]
  end.



(** ** A sequence of flows *)

Module NormalizingFlow.

Section Density.

(** The class of [density]; the notebook never looks inside it. *)
Context {Distribution : Type}.

(** [transforms] is [ComposeTransform(biject)], [final_density] is
    [TransformedDistribution(density, self.transforms)]; [log_det] is the
    address of a list. *)
Record t := mk {
  transforms : list flow;
  bijectors : list flow;
  base_density : Distribution;
  final_density : Distribution * list flow;
  log_det : nat
}.

Definition __init__ (dim : Z) (blocks : list flow_class) (flow_length : Z)
    (density : Distribution) : Py t :=
  let* biject :=
    for_ (range flow_length) (λ _ biject,
      for_ blocks (λ b_flow biject,
        let* f := instantiate b_flow dim in
        ret (biject ++ [f])) biject) [] in
  let* log_det := new_list in
  ret (mk biject biject density (density, biject) log_det).

Definition set_log_det (self : t) (l : nat) : t :=
  mk (transforms self) (bijectors self) (base_density self)
     (final_density self) l.

Definition forward (self : t) (z : Tensor) : Py ((Tensor * nat) * t) :=
  let* l := new_list in
  let self := set_log_det self l in
  let* z :=
    for_ (range (len (bijectors self))) (λ b z,
      let* f := lift (bijectors self !! b) in
      let* ladj := lift (log_abs_det_jacobian f z) in
      let* _ := append (log_det self) ladj in
      lift (call f z)) z in
  ret ((z, log_det self), self).

End Density.

Arguments t : clear implicits.

End NormalizingFlow.

(** ** Layers *)

Module NN.

(** [nn.Linear(in_features, out_features)]: [weight] has shape
    [(out_features, in_features)] and [bias] is a vector. *)
Record Linear := mkLinear { weight : Tensor; bias : Tensor }.

Definition Linear_forward (m : Linear) (input : Tensor) : option Tensor :=
  Torch.linear input (weight m) (bias m).

(** [nn.Softplus()], with its defaults [beta = 1] and [threshold = 20]:
    above the threshold the input is returned as it is. *)
Definition Softplus (input : Tensor) : Tensor :=
  Torch.tmap (λ x, if Rlt_dec 20 x then x else ln (1 + exp x)) input.

(** [nn.Hardtanh(min_val, max_val)] clamps every element. *)
Definition Hardtanh (min_val max_val : R) (input : Tensor) : Tensor :=
  Torch.tmap (λ x, Rmin (Rmax x min_val) max_val) input.

End NN.

(** ** The latent step of the auto-encoders *)

Module VAE.

(** [x] stands for the input batch, of which only [x.size(0)] is read. *)
Definition latent (x : Tensor) (z_params : Tensor * Tensor) : Py (Tensor * R) :=
  let n_batch := size0 x in
  let '(mu, sigma) := z_params in
  let* q := lift (Distrib.Normal_ (Torch.zeros (size1 mu))
                                  (Torch.ones (size1 sigma))) in
  let* eps := Distrib.sample q n_batch in
  let* se := lift (Torch.mul sigma eps) in
  let* z := lift (Torch.add se mu) in
  let* a := lift (Torch.sub (Torch.scalar_add 1 sigma) (Torch.pow mu 2)) in
  let* b := lift (Torch.sub a (Torch.exp sigma)) in
  let kl_div := -0.5 * Torch.sum b in
  let kl_div := kl_div / INR n_batch in
  ret (z, kl_div).

(** [self.sigma(x)]: the [nn.Sequential] of a linear layer, [nn.Softplus()]
    and [nn.Hardtanh(min_val=1e-4, max_val=5.)], applied to [x]. *)
Definition sigma (linear : NN.Linear) (x : Tensor) : option Tensor :=
  h ← NN.Linear_forward linear x;
  Some (NN.Hardtanh 1e-4 5 (NN.Softplus h)).

End VAE.

Module VAENormalizingFlow.

Section Density.

Context {Distribution : Type}.

Record t := mk { flow : NormalizingFlow.t Distribution }.

Definition latent (self : t) (x : Tensor) (z_params : Tensor * Tensor)
    : Py ((Tensor * R) * t) :=
  let n_batch := size0 x in
  let '(mu, sigma) := z_params in
  let* q := lift (Distrib.Normal_ (Torch.zeros (size1 mu))
                                  (Torch.ones (size1 sigma))) in
  let* eps := Distrib.sample q n_batch in
  let* se := lift (Torch.mul sigma eps) in
  let* z_0 := lift (Torch.add se mu) in
  let* ((z_k, list_ladj), flow') := NormalizingFlow.forward (flow self) z_0 in
  let self := mk flow' in
  let* log_p_zk := lift (Torch.mul (Torch.scalar_mul (-0.5) z_k) z_k) in
  let* d := lift (Torch.sub z_0 mu) in
  let* d' := lift (Torch.sub z_0 mu) in
  let* d2 := lift (Torch.mul d d') in
  let* q2 := lift (Torch.mul d2 (Torch.reciprocal sigma)) in
  let* s := lift (Torch.add (Torch.log sigma) q2) in
  let log_q_z0 := Torch.scalar_mul (-0.5) s in
  let* diff := lift (Torch.sub log_q_z0 log_p_zk) in
  let logs := Torch.sum diff in
  let* ladjs := items list_ladj in
  let* ladj := lift (Torch.cat ladjs) in
  let logs := logs - Torch.sum ladj in
  ret ((z_k, logs / INR n_batch), self).

End Density.

Arguments t : clear implicits.

End VAENormalizingFlow.

(** ** The grid of images *)

(** A batch of images, [batch.shape = (dim0, dim1, dim2, dim3)]: samples,
    channels, rows and columns. *)
Record Tensor4 := mkTensor4 {
  dim0 : nat;
  dim1 : nat;
  dim2 : nat;
  dim3 : nat;
  elem4 : nat → nat → nat → nat → R
}.

(** [torch.sum(batch[b], 0)]: the channels of image [b], added up. *)
Definition sum_channels (batch : Tensor4) (b : nat) : Tensor :=
  mkTensor (dim2 batch) (dim3 batch)
    (λ i j, vsum ((λ c, elem4 batch b c i j) <$> seq 0 (dim1 batch))).

Module Numpy.

Record ndarray := mkArray {
  height : nat;
  width : nat;
  pixel : nat → nat → R
}.

(** [np.zeros((n0, n1))]; a negative size raises. *)
Definition zeros (n0 n1 : Z) : option ndarray :=
  if decide (0 ≤ n0 ∧ 0 ≤ n1)%Z
  then Some (mkArray (Z.to_nat n0) (Z.to_nat n1) (λ _ _, 0))
  else None.

(** [a[r0:r1, c0:c1] = v] for bounds that are not negative.  The slice is cut
    at the sides of [a]; [v] is broadcast to what is left of it, which raises
    when a side of [v] is neither the side of that region nor 1. *)
Definition set_slice (a : ndarray) (r0 r1 c0 c1 : nat) (v : Tensor)
    : option ndarray :=
  let r0 := r0 `min` height a in
  let r1 := r1 `min` height a in
  let c0 := c0 `min` width a in
  let c1 := c1 `min` width a in
  if decide ((size0 v = r1 - r0 ∨ size0 v = 1)
             ∧ (size1 v = c1 - c0 ∨ size1 v = 1))%nat
  then Some (mkArray (height a) (width a)
               (λ i j, if decide (r0 ≤ i < r1 ∧ c0 ≤ j < c1)%nat
                       then Torch.expand v (i - r0) (j - c0)
                       else pixel a i j))
  else None.

End Numpy.

(** [for x in xs: body] for a body that has no effect on the store. *)
Fixpoint for_each {A S} (xs : list A) (body : A → S → option S) (s : S)
    : option S :=
  match xs with
  | [] => Some s
  | x :: xs' => s' ← body x s; for_each xs' body s'
  end.

(** The body of the loop of [plot_batch].  [int(b / nslices)] truncates the
    quotient; a division by 0 raises. *)
Definition plot_batch_tile (batch : Tensor4) (nslices : Z) (b : nat)
    (img : Numpy.ndarray) : option Numpy.ndarray :=
  if decide (nslices = 0)%Z then None
  else
    let row := Z.to_nat (Z.of_nat b ÷ nslices) in
    let col := Z.to_nat (Z.of_nat b `mod` nslices) in
    let r_p := (row * dim2 batch + row)%nat in
    let c_p := (col * dim3 batch + col)%nat in
    Numpy.set_slice img r_p (r_p + dim2 batch) c_p (c_p + dim3 batch)
      (sum_channels batch b).

(** [plot_batch]: the result is the array that is handed to [plt.imshow]. *)
Definition plot_batch (batch : Tensor4) (nslices : Z)
    : option Numpy.ndarray :=
  img ← Numpy.zeros ((Z.of_nat (dim2 batch) + 1) * nslices)
                    ((Z.of_nat (dim3 batch) + 1) * nslices);
  for_each (range (Z.of_nat (dim0 batch))) (plot_batch_tile batch nslices) img.

(** The pixel at [(r, c)] of a grid of [n] images per row that holds the
    first [k] images of the batch, one blank line after every image. *)
Definition grid_pixel (batch : Tensor4) (n k r c : nat) : R :=
  let tr := (r / (dim2 batch + 1))%nat in
  let ir := (r mod (dim2 batch + 1))%nat in
  let tc := (c / (dim3 batch + 1))%nat in
  let ic := (c mod (dim3 batch + 1))%nat in
  if decide (ir < dim2 batch ∧ ic < dim3 batch ∧ tc < n ∧ tr * n + tc < k)%nat
  then elem (sum_channels batch (tr * n + tc)) ir ic
  else 0.

(** ** The reconstruction error *)

#[global] Instance Rle_decision (x y : R) : Decision (x <= y) := Rle_dec x y.

Module F.

(** The logarithm as [F.binary_cross_entropy] takes it: not below -100, which
    is also what stands for the logarithm of 0. *)
Definition clamp_log (p : R) : R :=
  if Rle_dec p 0 then -100 else Rmax (ln p) (-100).

(** [F.binary_cross_entropy(input, target, reduction='none')] for two
    matrices: it raises when the sizes differ and when an element of [input]
    is not between 0 and 1. *)
Definition binary_cross_entropy (input target : Tensor) : option Tensor :=
  if decide (shape input = shape target
             ∧ Forall (Forall (λ p, 0 <= p <= 1)) (tolist input))
  then Some (mkTensor (size0 input) (size1 input)
               (λ i j, (elem target i j - 1) * clamp_log (1 - elem input i j)
                       - elem target i j * clamp_log (elem input i j)))
  else None.

End F.

(** [t.sum(dim = 0)]: a vector, held as one row. *)
Definition sum_dim0 (t : Tensor) : Tensor :=
  mkTensor 1 (size1 t) (λ _ j, vsum (col t j)).

(** [x.view(x.size(0), -1)] for a matrix [x]: the matrix itself, but without
    rows the size that is left open cannot be told, and the call raises. *)
Definition view_rows (x : Tensor) : option Tensor :=
  if decide (size0 x = 0%nat) then None else Some x.

Definition binary_loss (x_tilde x : Tensor) : option Tensor :=
  l ← F.binary_cross_entropy x_tilde x;
  Some (sum_dim0 l).

Section Loss.

(** [multinomial_loss] is not modelled: what it returns is left open. *)
Variable multinomial_loss : Tensor → Tensor → option Tensor.

(** [reconstruction_loss] for a batch [x] that is a matrix, the images being
    flattened already as [evaluate_nll_bpd] passes them; the number that
    [average] gives is held as a tensor of one element. *)
Definition reconstruction_loss (x_tilde x : Tensor) (num_classes : Z)
    (average : bool) : option Tensor :=
  loss ← (if decide (num_classes = 1)%Z
          then v ← view_rows x; binary_loss x_tilde v
          else multinomial_loss x_tilde x);
  if average
  then Some (Torch.tensor1 [Torch.sum loss / INR (size0 x)])
  else Some loss.

End Loss.

(** ** The formulas of the specification *)

Module Spec.

(** *** Planar flow, for one sample [z] *)

(** [y = z + u * tanh(w·z + b)] *)
Definition planar_forward (w u : list R) (b : R) (z : list R) : list R :=
  zip_with (λ zj uj, zj + uj * tanh (vdot w z + b)) z u.

(** [psi = (1 - tanh(w·z+b)^2) * w] *)
Definition planar_psi (w : list R) (b : R) (z : list R) : list R :=
  (λ wj, (1 - tanh (vdot w z + b) ^ 2) * wj) <$> w.

(** [det = 1 + psi·u], result [log(|det| + ε)] *)
Definition planar_log_det (w u : list R) (b : R) (z : list R) : R :=
  let det := 1 + vdot (planar_psi w b z) u in
  ln (Rabs det + 1e-9).

(** *** Radial flow, for one sample [z] *)

(** [r = ||z - z0||] *)
Definition radial_r (z0 z : list R) : R := vnorm (zip_with Rminus z z0).

(** [h = 1/(alpha + r)], [y = z + beta*h*(z - z0)] *)
Definition radial_forward (z0 : list R) (alpha beta : R) (z : list R)
    : list R :=
  let r := radial_r z0 z in
  let h := 1 / (alpha + r) in
  zip_with (λ zj cj, zj + beta * h * (zj - cj)) z z0.

(** [hp = -1/(alpha+r)^2], [bh = beta*h],
    [det = ((1+bh)^dim - 1) * (1 + bh + beta*hp*r)] *)
Definition radial_log_det (z0 : list R) (alpha beta : R) (dim : nat)
    (z : list R) : R :=
  let r := radial_r z0 z in
  let h := 1 / (alpha + r) in
  let hp := - 1 / (alpha + r) ^ 2 in
  let bh := beta * h in
  let det := ((1 + bh) ^ dim - 1) * (1 + bh + beta * hp * r) in
  ln (Rabs det + 1e-9).

(** *** The sequence of flows *)

(** "for each flow in order, first record [log_abs_det_jacobian(z)], then
    overwrite z with [forward(z)]; return the final z and the ordered sequence
    of recorded per-flow log-determinant tensors" *)
Fixpoint run (flows : list flow) (z : Tensor)
    : option (Tensor * list Tensor) :=
  match flows with
  | [] => Some (z, [])
  | f :: flows' =>
      l ← log_abs_det_jacobian f z;
      z' ← call f z;
      '(zk, ls) ← run flows' z';
      Some (zk, l :: ls)
  end.

(** The batch after the flows of a list, applied in order. *)
Fixpoint through (flows : list flow) (z : Tensor) : option Tensor :=
  match flows with
  | [] => Some z
  | f :: flows' => z' ← call f z; through flows' z'
  end.


(** *** The latent regularisation *)

(** The sum of [f i j] over [rows] samples and [cols] elements. *)
Definition sum_over (rows cols : nat) (f : nat → nat → R) : R :=
  vsum ((λ i, vsum (f i <$> seq 0 cols)) <$> seq 0 rows).

(** [kl = -0.5 * sum(1 + sigma - mu^2 - exp(sigma)) / batch_size] *)
Definition kl (batch_size dim : nat) (mu sigma : nat → nat → R) : R :=
  -0.5 * sum_over batch_size dim
           (λ i j, 1 + sigma i j - mu i j ^ 2 - exp (sigma i j))
  / INR batch_size.

(** [log_p_zk = -0.5 * zk^2] *)
Definition log_p_zk (zk : R) : R := -0.5 * zk ^ 2.

(** [log_q_z0 = -0.5 * (log(sigma) + (z0-mu)^2 / sigma)] *)
Definition log_q_z0 (mu sigma z0 : R) : R :=
  -0.5 * (ln sigma + (z0 - mu) ^ 2 / sigma).

(** [logs = sum(log_q_z0 - log_p_zk)] minus the sum of all recorded
    log-determinants; the result is [logs / batch_size]. *)
Definition free_energy (batch_size dim : nat) (mu sigma z0 zk : nat → nat → R)
    (log_dets : list Tensor) : R :=
  let logs :=
    sum_over batch_size dim
      (λ i j, log_q_z0 (mu i j) (sigma i j) (z0 i j) - log_p_zk (zk i j))
    - vsum (Torch.sum <$> log_dets) in
  logs / INR batch_size.

End Spec.

(** ** Well-formed parameters *)

(** The shapes the constructors give to the parameters of a flow of
    dimension [d]. *)
Definition PlanarFlow_wf (d : nat) (f : PlanarFlow.t) : Prop :=
  shape (PlanarFlow.weight f) = (1%nat, d)
  ∧ shape (PlanarFlow.scale f) = (1%nat, d)
  ∧ shape (PlanarFlow.bias f) = (1%nat, 1%nat).

Definition RadialFlow_wf (d : nat) (f : RadialFlow.t) : Prop :=
  shape (RadialFlow.z0 f) = (1%nat, d)
  ∧ shape (RadialFlow.alpha f) = (1%nat, 1%nat)
  ∧ shape (RadialFlow.beta f) = (1%nat, 1%nat)
  ∧ RadialFlow.dim f = Z.of_nat d.

Definition flow_wf (d : nat) (f : flow) : Prop :=
  match f with
  | Planar f => PlanarFlow_wf d f
  | Radial f => RadialFlow_wf d f
  end.

(** ** The instances the specification names *)

Module Example.

(** The planar flow with [w = [1, 0]], [u = [1, 0]], [b = 0]. *)
Definition planar : PlanarFlow.t :=
  PlanarFlow.mk (Torch.tensor [[1; 0]]) (Torch.tensor [[1; 0]])
                (Torch.tensor1 [0]).

(** [z = [[0, 0]]] *)
Definition origin : Tensor := Torch.tensor [[0; 0]].

(** A radial flow centred at [(1, 2)], with [alpha = 1] and [beta = 3]. *)
Definition radial : RadialFlow.t :=
  RadialFlow.mk (Torch.tensor [[1; 2]]) (Torch.tensor1 [1])
                (Torch.tensor1 [3]) 2.

(** The batch whose only sample is the centre of [radial]. *)
Definition centre : Tensor := Torch.tensor [[1; 2]].

(** A store without objects and a generator that only draws zeros. *)
Definition world : World := mkWorld ∅ (λ _, 0) (λ _, 0).

(** A sequence of the two flows above, with the list of its constructor at
    address 0, and the store that holds this list. *)
Definition flows : list flow := [Planar planar; Radial radial].

Definition sequence : NormalizingFlow.t unit :=
  NormalizingFlow.mk flows flows () ((), flows) 0.

Definition world' : World := mkWorld {[0%nat := []]} (λ _, 0) (λ _, 0).

(** A sequence without flows. *)
Definition no_flows : NormalizingFlow.t unit :=
  NormalizingFlow.mk [] [] () ((), []) 0.

(** The auto-encoders that hold them. *)
Definition vae : VAENormalizingFlow.t unit := VAENormalizingFlow.mk sequence.

Definition vae_no_flows : VAENormalizingFlow.t unit :=
  VAENormalizingFlow.mk no_flows.

(** [mu = 0], [sigma = 0] for batch size 1 and dimension 1. *)
Definition zero : Tensor := Torch.tensor [[0]].

(** [mu = 1], [sigma = 2] for batch size 1 and dimension 2. *)
Definition mu : Tensor := Torch.tensor [[1; 1]].
Definition sigma : Tensor := Torch.tensor [[2; 2]].

End Example.

(** ** Further instances *)

Module Fixture.

(** A planar flow that does not move its input: [u = [0, 0]]. *)
Definition planar_still : PlanarFlow.t :=
  PlanarFlow.mk (Torch.tensor [[1; 0]]) (Torch.tensor [[0; 0]])
                (Torch.tensor1 [0]).


(** The planar flow of dimension 1 with [w = 1], [u = 1], [b = 0]. *)
Definition planar_line : PlanarFlow.t :=
  PlanarFlow.mk (Torch.tensor [[1]]) (Torch.tensor [[1]]) (Torch.tensor1 [0]).

(** A batch of two samples, the second of which is the origin. *)
Definition pair : Tensor := Torch.tensor [[1; 2]; [0; 0]].

(** The two halves of [Example.sequence]. *)
Definition first_half : NormalizingFlow.t unit :=
  NormalizingFlow.mk [Planar Example.planar] [Planar Example.planar] ()
    ((), [Planar Example.planar]) 0.

Definition second_half : NormalizingFlow.t unit :=
  NormalizingFlow.mk [Radial Example.radial] [Radial Example.radial] ()
    ((), [Radial Example.radial]) 0.

(** A linear layer from two features to one. *)
Definition linear : NN.Linear :=
  NN.mkLinear (Torch.tensor [[1; 0]]) (Torch.tensor1 [0]).

(** A binary image of two pixels for each of two samples. *)
Definition pixels : Tensor := Torch.tensor [[0; 1]; [1; 0]].

(** Three images of two channels, two rows and two columns. *)
Definition images : Tensor4 :=
  mkTensor4 3 2 2 2 (λ b c i j, INR (b + c + i + j)).

End Fixture.

(** * Properties *)

(** ** Broadcasting *)

Lemma broadcast_dim_same n : Torch.broadcast_dim n n = Some n.
Proof. unfold Torch.broadcast_dim. by rewrite decide_True. Qed.

Lemma broadcast_dim_1_l n : Torch.broadcast_dim 1 n = Some n.
Proof. unfold Torch.broadcast_dim. repeat case_decide; congruence. Qed.

Lemma broadcast_dim_1_r n : Torch.broadcast_dim n 1 = Some n.
Proof. unfold Torch.broadcast_dim. repeat case_decide; congruence. Qed.

Lemma expand_index_lt m i : (i < m)%nat → Torch.expand_index m i = i.
Proof. unfold Torch.expand_index. case_decide; lia. Qed.

Lemma expand_index_1 i : Torch.expand_index 1 i = 0%nat.
Proof. reflexivity. Qed.

Lemma vdot_comm a b : vdot a b = vdot b a.
Proof.
  unfold vdot. revert b.
  induction a as [|x a IH]; intros [|y b]; simpl; try reflexivity.
  rewrite IH. ring.
Qed.

(** ** Shapes and elements of the results of tensor operations *)

Create HintDb torch.

#[local] Hint Resolve broadcast_dim_same broadcast_dim_1_l broadcast_dim_1_r : torch.

Ltac torch_index :=
  repeat match goal with
  | |- context [Torch.expand_index 1 ?i] => rewrite (expand_index_1 i)
  | H : (?i < ?m)%nat |- context [Torch.expand_index ?m ?i] =>
      rewrite (expand_index_lt m i H)
  end.

Lemma fmap_seq_ext {A} (f g : nat → A) n :
  (∀ j, (j < n)%nat → f j = g j) → f <$> seq 0 n = g <$> seq 0 n.
Proof.
  intros H. apply list_fmap_ext. intros k j Hj. apply H.
  apply lookup_seq in Hj. lia.
Qed.

Lemma zip_with_fmap_seq {A B C} (f : A → B → C) (g : nat → A) (h : nat → B) n :
  zip_with f (g <$> seq 0 n) (h <$> seq 0 n) = (λ j, f (g j) (h j)) <$> seq 0 n.
Proof.
  rewrite zip_with_fmap_l, zip_with_fmap_r, zip_with_diag. reflexivity.
Qed.

Lemma row_lookup t i j :
  (j < size1 t)%nat → row t i !! j = Some (elem t i j).
Proof.
  intros H. unfold row. rewrite list_lookup_fmap, lookup_seq_lt by done.
  reflexivity.
Qed.

Lemma row_unfold t i c : size1 t = c → row t i = elem t i <$> seq 0 c.
Proof. by intros <-. Qed.

Lemma row_ext t t' i i' :
  size1 t = size1 t' →
  (∀ j, (j < size1 t)%nat → elem t i j = elem t' i' j) → row t i = row t' i'.
Proof.
  intros Hs H. unfold row. rewrite <- Hs. by apply fmap_seq_ext.
Qed.

Lemma shape_inv t r c : shape t = (r, c) → size0 t = r ∧ size1 t = c.
Proof. unfold shape. intros [= -> ->]. done. Qed.

Lemma elementwise2_shape f a b ra ca rb cb r c :
  shape a = (ra, ca) → shape b = (rb, cb) →
  Torch.broadcast_dim ra rb = Some r → Torch.broadcast_dim ca cb = Some c →
  ∃ t, Torch.elementwise2 f a b = Some t
       ∧ shape t = (r, c)
       ∧ ∀ i j, elem t i j
                = f (elem a (Torch.expand_index ra i) (Torch.expand_index ca j))
                    (elem b (Torch.expand_index rb i) (Torch.expand_index cb j)).
Proof.
  intros [<- <-]%shape_inv [<- <-]%shape_inv Hr Hc.
  unfold Torch.elementwise2. rewrite Hr, Hc. simpl.
  eexists. split; [reflexivity|]. split; reflexivity.
Qed.

Lemma add_shape a b ra ca rb cb r c :
  shape a = (ra, ca) → shape b = (rb, cb) →
  Torch.broadcast_dim ra rb = Some r → Torch.broadcast_dim ca cb = Some c →
  ∃ t, Torch.add a b = Some t
       ∧ shape t = (r, c)
       ∧ ∀ i j, elem t i j
                = elem a (Torch.expand_index ra i) (Torch.expand_index ca j)
                  + elem b (Torch.expand_index rb i) (Torch.expand_index cb j).
Proof. apply (elementwise2_shape Rplus). Qed.

Lemma sub_shape a b ra ca rb cb r c :
  shape a = (ra, ca) → shape b = (rb, cb) →
  Torch.broadcast_dim ra rb = Some r → Torch.broadcast_dim ca cb = Some c →
  ∃ t, Torch.sub a b = Some t
       ∧ shape t = (r, c)
       ∧ ∀ i j, elem t i j
                = elem a (Torch.expand_index ra i) (Torch.expand_index ca j)
                  - elem b (Torch.expand_index rb i) (Torch.expand_index cb j).
Proof. apply (elementwise2_shape Rminus). Qed.

Lemma mul_shape a b ra ca rb cb r c :
  shape a = (ra, ca) → shape b = (rb, cb) →
  Torch.broadcast_dim ra rb = Some r → Torch.broadcast_dim ca cb = Some c →
  ∃ t, Torch.mul a b = Some t
       ∧ shape t = (r, c)
       ∧ ∀ i j, elem t i j
                = elem a (Torch.expand_index ra i) (Torch.expand_index ca j)
                  * elem b (Torch.expand_index rb i) (Torch.expand_index cb j).
Proof. apply (elementwise2_shape Rmult). Qed.

Lemma mm_shape a b r k c :
  shape a = (r, k) → shape b = (k, c) →
  ∃ t, Torch.mm a b = Some t
       ∧ shape t = (r, c)
       ∧ ∀ i j, elem t i j = vdot (row a i) (col b j).
Proof.
  intros [<- <-]%shape_inv [Hk <-]%shape_inv.
  unfold Torch.mm. rewrite decide_True by done.
  eexists. split; [reflexivity|]. split; reflexivity.
Qed.

Lemma linear_shape z W b B d :
  shape z = (B, d) → shape W = (1%nat, d) → shape b = (1%nat, 1%nat) →
  ∃ t, Torch.linear z W b = Some t
       ∧ shape t = (B, 1%nat)
       ∧ ∀ i, (i < B)%nat →
           elem t i 0 = vdot (row W 0) (row z i) + elem b 0 0.
Proof.
  intros Hz HW Hb. unfold Torch.linear.
  destruct (mm_shape z (Torch.t_ W) B d 1) as (m & -> & Hm & Em); [done| |].
  { apply shape_inv in HW as [H0 H1]. unfold shape. simpl. congruence. }
  simpl.
  destruct (add_shape m b B 1 1 1 B 1) as (t & Ht & Hs & Et);
    auto with torch.
  rewrite Ht. eexists. split; [reflexivity|].
  split; [done|]. intros i Hi. rewrite Et, Em. torch_index.
  rewrite vdot_comm. reflexivity.
Qed.

Lemma PlanarFlow_ladj_elem (d : nat) (self : PlanarFlow.t) (z : Tensor) :
  PlanarFlow_wf d self → size1 z = d →
  ∃ l, PlanarFlow.log_abs_det_jacobian self z = Some l
       ∧ shape l = (size0 z, 1%nat)
       ∧ ∀ i, (i < size0 z)%nat →
           elem l i 0
           = Spec.planar_log_det (row (PlanarFlow.weight self) 0)
               (row (PlanarFlow.scale self) 0)
               (elem (PlanarFlow.bias self) 0 0) (row z i).
Proof.
  destruct self as [W u b]. unfold PlanarFlow_wf. simpl.
  intros (HW & Hu & Hb) Hd.
  assert (Hz : shape z = (size0 z, d)) by (unfold shape; congruence).
  unfold PlanarFlow.log_abs_det_jacobian. simpl.
  destruct (linear_shape z W b _ _ Hz HW Hb) as (f_z & -> & Hf & Ef). simpl.
  edestruct (mul_shape
    (Torch.scalar_sub 1 (Torch.pow (Torch.tanh f_z) 2)) W)
    as (psi & Hpsi & Hsp & Ep); [exact Hf | exact HW | auto with torch ..|].
  rewrite Hpsi. simpl.
  edestruct (mm_shape psi (Torch.t_ u)) as (m & -> & Hm & Em); [exact Hsp | |].
  { apply shape_inv in Hu as [H0 H1]. unfold shape. simpl. rewrite H0, H1. reflexivity. }
  eexists. split; [reflexivity|]. split; [exact Hm|].
  intros i Hi. simpl. rewrite Em.
  unfold Spec.planar_log_det.
  assert (row psi i = Spec.planar_psi (row W 0) (elem b 0 0) (row z i)) as ->.
  { apply shape_inv in Hsp as [H0 H1]. apply shape_inv in HW as [H2 H3].
    unfold Spec.planar_psi, row. rewrite H1, H3, <- list_fmap_compose.
    apply fmap_seq_ext. intros j Hj. rewrite Ep. simpl. torch_index.
    rewrite (Ef i Hi). simpl. unfold row. rewrite H3. reflexivity. }
  reflexivity.
Qed.

Lemma PlanarFlow_call_elem (d : nat) (self : PlanarFlow.t) (z : Tensor) :
  PlanarFlow_wf d self → size1 z = d →
  ∃ y, PlanarFlow._call self z = Some y
       ∧ shape y = shape z
       ∧ ∀ i j, (i < size0 z)%nat → (j < d)%nat →
           elem y i j
           = elem z i j
             + elem (PlanarFlow.scale self) 0 j
               * tanh (vdot (row (PlanarFlow.weight self) 0) (row z i)
                       + elem (PlanarFlow.bias self) 0 0).
Proof.
  destruct self as [W u b]. unfold PlanarFlow_wf. simpl.
  intros (HW & Hu & Hb) Hd.
  assert (Hz : shape z = (size0 z, d)) by (unfold shape; congruence).
  unfold PlanarFlow._call. simpl.
  destruct (linear_shape z W b _ _ Hz HW Hb) as (f_z & -> & Hf & Ef). simpl.
  edestruct (mul_shape u (Torch.tanh f_z)) as (s & -> & Hs & Es);
    [exact Hu | exact Hf | auto with torch ..|].
  simpl.
  edestruct (add_shape z s) as (y & -> & Hy & Ey);
    [exact Hz | exact Hs | auto with torch ..|].
  eexists. split; [reflexivity|]. split; [by rewrite Hy, Hz|].
  intros i j Hi Hj. rewrite Ey, Es. simpl. torch_index.
  rewrite (Ef i Hi). reflexivity.
Qed.

Lemma radial_sub_shape z z0 B d :
  shape z = (B, d) → shape z0 = (1%nat, d) →
  ∃ t, Torch.sub z z0 = Some t
       ∧ shape t = (B, d)
       ∧ (∀ i j, (i < B)%nat → (j < d)%nat →
            elem t i j = elem z i j - elem z0 0 j)
       ∧ ∀ i, (i < B)%nat →
           vnorm (row t i) = Spec.radial_r (row z0 0) (row z i).
Proof.
  intros Hz Hz0.
  destruct (sub_shape z z0 B d 1 d B d) as (t & Ht & Hs & Et);
    auto with torch.
  exists t. split; [exact Ht|]. split; [exact Hs|].
  assert (E : ∀ i j, (i < B)%nat → (j < d)%nat →
            elem t i j = elem z i j - elem z0 0 j).
  { intros i j Hi Hj. rewrite Et. torch_index. reflexivity. }
  split; [exact E|]. intros i Hi.
  apply shape_inv in Hs as [H0 H1]. apply shape_inv in Hz as [H2 H3].
  apply shape_inv in Hz0 as [H4 H5].
  unfold Spec.radial_r, row. rewrite H1, H3, H5, zip_with_fmap_seq.
  f_equal. apply fmap_seq_ext. intros j Hj. apply E; done.
Qed.

Lemma RadialFlow_call_elem (d : nat) (self : RadialFlow.t) (z : Tensor) :
  RadialFlow_wf d self → size1 z = d →
  ∃ y, RadialFlow._call self z = Some y
       ∧ shape y = shape z
       ∧ ∀ i j, (i < size0 z)%nat → (j < d)%nat →
           elem y i j
           = elem z i j
             + elem (RadialFlow.beta self) 0 0
               * (1 / (elem (RadialFlow.alpha self) 0 0
                       + Spec.radial_r (row (RadialFlow.z0 self) 0) (row z i)))
               * (elem z i j - elem (RadialFlow.z0 self) 0 j).
Proof.
  destruct self as [z0 alpha beta dim]. unfold RadialFlow_wf. simpl.
  intros (Hz0 & Ha & Hb & _) Hd.
  assert (Hz : shape z = (size0 z, d)) by (unfold shape; congruence).
  unfold RadialFlow._call. simpl.
  destruct (radial_sub_shape z z0 _ _ Hz Hz0) as (dd & -> & Hdd & Edd & Er).
  simpl. set (r := Torch.unsqueeze1 (Torch.norm_dim1 dd)).
  assert (Hr : shape r = (size0 z, 1%nat)).
  { apply shape_inv in Hdd as [H0 H1]. unfold shape. simpl. by rewrite H0. }
  edestruct (add_shape alpha r) as (ar & -> & Hsar & Ear);
    [exact Ha | exact Hr | auto with torch ..|].
  simpl.
  edestruct (mul_shape beta (Torch.scalar_div 1 ar))
    as (bh & -> & Hsbh & Ebh); [exact Hb | exact Hsar | auto with torch ..|].
  simpl.
  edestruct (mul_shape bh dd) as (m & -> & Hsm & Em);
    [exact Hsbh | exact Hdd | auto with torch ..|].
  simpl.
  edestruct (add_shape z m) as (y & -> & Hsy & Ey);
    [exact Hz | exact Hsm | auto with torch ..|].
  eexists. split; [reflexivity|]. split; [by rewrite Hsy, Hz|].
  intros i j Hi Hj. rewrite Ey, Em, Ebh. simpl. rewrite Ear. torch_index.
  rewrite (Edd i j Hi Hj). unfold r. simpl. rewrite (Er i Hi). reflexivity.
Qed.

Lemma RadialFlow_call_rows (d : nat) (self : RadialFlow.t) (z : Tensor) :
  RadialFlow_wf d self → size1 z = d →
  ∃ y, RadialFlow._call self z = Some y
       ∧ shape y = shape z
       ∧ ∀ i, (i < size0 z)%nat →
           row y i
           = Spec.radial_forward (row (RadialFlow.z0 self) 0)
               (elem (RadialFlow.alpha self) 0 0)
               (elem (RadialFlow.beta self) 0 0) (row z i).
Proof.
  intros Hwf Hd.
  destruct (RadialFlow_call_elem d self z Hwf Hd) as (y & Hy & Hs & Ey).
  exists y. split; [exact Hy|]. split; [exact Hs|]. intros i Hi.
  destruct Hwf as ([_ H0]%shape_inv & _).
  apply shape_inv in Hs as [_ Hs1].
  specialize (Ey i). unfold Spec.radial_forward. cbv zeta.
  set (r := Spec.radial_r _ _) in *.
  rewrite (row_unfold y i d), (row_unfold (RadialFlow.z0 self) 0 d),
    (row_unfold z i d), zip_with_fmap_seq by congruence.
  apply fmap_seq_ext. intros j Hj. by apply Ey.
Qed.

Lemma RadialFlow_ladj_elem (d : nat) (self : RadialFlow.t) (z : Tensor) :
  RadialFlow_wf d self → size1 z = d →
  ∃ l, RadialFlow.log_abs_det_jacobian self z = Some l
       ∧ shape l = (size0 z, 1%nat)
       ∧ ∀ i, (i < size0 z)%nat →
           elem l i 0
           = Spec.radial_log_det (row (RadialFlow.z0 self) 0)
               (elem (RadialFlow.alpha self) 0 0)
               (elem (RadialFlow.beta self) 0 0) d (row z i).
Proof.
  destruct self as [z0 alpha beta dim]. unfold RadialFlow_wf. simpl.
  intros (Hz0 & Ha & Hb & Hdim) Hd.
  assert (Hz : shape z = (size0 z, d)) by (unfold shape; congruence).
  unfold RadialFlow.log_abs_det_jacobian. simpl.
  destruct (radial_sub_shape z z0 _ _ Hz Hz0) as (dd & -> & Hdd & Edd & Er).
  simpl. set (r := Torch.unsqueeze1 (Torch.norm_dim1 dd)).
  assert (Hr : shape r = (size0 z, 1%nat)).
  { apply shape_inv in Hdd as [H0 H1]. unfold shape. simpl. by rewrite H0. }
  edestruct (add_shape alpha r) as (ar & -> & Hsar & Ear);
    [exact Ha | exact Hr | auto with torch ..|].
  simpl.
  edestruct (mul_shape beta (Torch.scalar_div 1 ar))
    as (bh & -> & Hsbh & Ebh); [exact Hb | exact Hsar | auto with torch ..|].
  simpl.
  edestruct (mul_shape beta (Torch.scalar_div (-1) (Torch.pow ar 2)))
    as (bhp & -> & Hsbhp & Ebhp); [exact Hb | exact Hsar | auto with torch ..|].
  simpl.
  edestruct (mul_shape bhp r) as (bhpr & -> & Hsbhpr & Ebhpr);
    [exact Hsbhp | exact Hr | auto with torch ..|].
  simpl.
  edestruct (add_shape (Torch.scalar_add 1 bh) bhpr)
    as (s & -> & Hss & Es); [exact Hsbh | exact Hsbhpr | auto with torch ..|].
  simpl.
  edestruct (mul_shape
               (Torch.sub_scalar (Torch.pow (Torch.scalar_add 1 bh) dim) 1) s)
    as (det & -> & Hsdet & Edet); [exact Hsbh | exact Hss | auto with torch ..|].
  simpl.
  eexists. split; [reflexivity|]. split; [exact Hsdet|].
  intros i Hi. simpl.
  repeat (first [rewrite Edet | rewrite Es | rewrite Ebhpr | rewrite Ebhp
                | rewrite Ebh | rewrite Ear]; simpl; torch_index).
  unfold r. simpl. rewrite (Er i Hi).
  unfold Spec.radial_log_det. rewrite Hdim, <- pow_powerRZ.
  reflexivity.
Qed.

Lemma call_shape d f z :
  flow_wf d f → size1 z = d → ∃ y, call f z = Some y ∧ shape y = shape z.
Proof.
  destruct f as [f|f]; simpl; intros Hf Hz.
  - destruct (PlanarFlow_call_elem d f z Hf Hz) as (y & ? & ? & _); eauto.
  - destruct (RadialFlow_call_elem d f z Hf Hz) as (y & ? & ? & _); eauto.
Qed.

Lemma log_abs_det_jacobian_shape d f z :
  flow_wf d f → size1 z = d →
  ∃ l, log_abs_det_jacobian f z = Some l ∧ shape l = (size0 z, 1%nat).
Proof.
  destruct f as [f|f]; simpl; intros Hf Hz.
  - destruct (PlanarFlow_ladj_elem d f z Hf Hz) as (y & ? & ? & _); eauto.
  - destruct (RadialFlow_ladj_elem d f z Hf Hz) as (y & ? & ? & _); eauto.
Qed.

(** ** The sequence of flows *)

Lemma run_wf d flows z :
  Forall (flow_wf d) flows → size1 z = d →
  ∃ zk ls, Spec.run flows z = Some (zk, ls)
           ∧ shape zk = shape z
           ∧ Forall (λ l, shape l = (size0 z, 1%nat)) ls.
Proof.
  intros Hf. revert z. induction Hf as [|f flows Hf _ IH]; intros z Hz.
  - exists z, []. simpl. auto.
  - destruct (log_abs_det_jacobian_shape d f z Hf Hz) as (l & Hl & Hsl).
    destruct (call_shape d f z Hf Hz) as (z' & Hz' & Hsz').
    assert (Hd' : size1 z' = d).
    { apply (f_equal snd) in Hsz'. simpl in Hsz'. congruence. }
    destruct (IH z' Hd') as (zk & ls & Hrun & Hszk & Hls).
    exists zk, (l :: ls). simpl. rewrite Hl, Hz'. simpl. rewrite Hrun. simpl.
    split; [done|]. split; [congruence|].
    constructor; [done|].
    apply (f_equal fst) in Hsz'. simpl in Hsz'. by rewrite <- Hsz'.
Qed.

Lemma run_length flows z zk ls :
  Spec.run flows z = Some (zk, ls) → length ls = length flows.
Proof.
  revert z zk ls. induction flows as [|f flows IH]; simpl; intros z zk ls H.
  - by simplify_eq.
  - destruct (log_abs_det_jacobian f z) as [l|]; [simpl in H|done].
    destruct (call f z) as [z'|]; [simpl in H|done].
    destruct (Spec.run flows z') as [[zk' ls']|] eqn:E; [simpl in H|done].
    simplify_eq. simpl. f_equal. eauto.
Qed.

Lemma run_through flows z zk ls :
  Spec.run flows z = Some (zk, ls) → Spec.through flows z = Some zk.
Proof.
  revert z zk ls. induction flows as [|f flows IH]; simpl; intros z zk ls H.
  - by simplify_eq.
  - destruct (log_abs_det_jacobian f z) as [l|]; [simpl in H|done].
    destruct (call f z) as [z'|]; [simpl in H|done]. simpl.
    destruct (Spec.run flows z') as [[zk' ls']|] eqn:E; [simpl in H|done].
    simplify_eq. eauto.
Qed.

Lemma run_lookup flows z zk ls i f :
  Spec.run flows z = Some (zk, ls) → flows !! i = Some f →
  ∃ zi, Spec.through (take i flows) z = Some zi
        ∧ log_abs_det_jacobian f zi = ls !! i.
Proof.
  revert z zk ls i. induction flows as [|g flows IH]; simpl; intros z zk ls i H Hi.
  - done.
  - destruct (log_abs_det_jacobian g z) as [l|] eqn:El; [simpl in H|done].
    destruct (call g z) as [z'|] eqn:Ec; [simpl in H|done].
    destruct (Spec.run flows z') as [[zk' ls']|] eqn:E; [simpl in H|done].
    simplify_eq. destruct i as [|i]; simpl in *.
    + simplify_eq. exists z. done.
    + rewrite Ec. simpl. eauto.
Qed.

(** ** Statements and the store *)

Lemma set_heap_id w : set_heap w (heap w) = w.
Proof. by destruct w. Qed.

Lemma bind_unfold {A B} (c : Py A) (k : A → Py B) w :
  bind c k w = match c w with Some (a, w') => k a w' | None => None end.
Proof. reflexivity. Qed.

Lemma bind_lift {A B} (o : option A) (k : A → Py B) w :
  bind (lift o) k w = match o with Some a => k a w | None => None end.
Proof. unfold bind, lift. by destruct o. Qed.

Lemma bind_append {B} l v (k : unit → Py B) w vs :
  heap w !! l = Some vs →
  bind (append l v) k w = k () (set_heap w (<[l := vs ++ [v]]> (heap w))).
Proof. intros H. unfold bind, append. by rewrite H. Qed.

Section forward.

Context {Distribution : Type}.
Implicit Types self : NormalizingFlow.t Distribution.

(** The body of the loop of [forward]. *)
Lemma forward_loop self pre flows z w acc :
  NormalizingFlow.bijectors self = pre ++ flows →
  heap w !! NormalizingFlow.log_det self = Some acc →
  for_ (seq (length pre) (length flows))
    (λ b z,
      let* f := lift (NormalizingFlow.bijectors self !! b) in
      let* ladj := lift (log_abs_det_jacobian f z) in
      let* _ := append (NormalizingFlow.log_det self) ladj in
      lift (call f z)) z w
  = match Spec.run flows z with
    | Some (zk, ls) =>
        Some (zk, set_heap w
                    (<[NormalizingFlow.log_det self := acc ++ ls]> (heap w)))
    | None => None
    end.
Proof.
  revert pre z w acc.
  induction flows as [|f flows IH]; intros pre z w acc Hb Hl; simpl.
  - rewrite app_nil_r, insert_id, set_heap_id by done. reflexivity.
  - rewrite bind_unfold, bind_lift.
    rewrite Hb at 1. rewrite list_lookup_middle by done.
    rewrite bind_lift.
    destruct (log_abs_det_jacobian f z) as [l|]; [simpl|done].
    rewrite (bind_append _ _ _ _ _ Hl). unfold lift at 1.
    destruct (call f z) as [z'|]; [simpl|done].
    specialize (IH (pre ++ [f]) z'
      (set_heap w (<[NormalizingFlow.log_det self := acc ++ [l]]> (heap w)))
      (acc ++ [l])).
    rewrite length_app in IH. simpl in IH.
    replace (length pre + 1)%nat with (S (length pre)) in IH by lia.
    rewrite IH.
    + destruct (Spec.run flows z') as [[zk ls]|]; [simpl|done].
      rewrite insert_insert_eq, <- app_assoc. reflexivity.
    + by rewrite <- app_assoc.
    + simpl. apply lookup_insert_eq.
Qed.

Lemma forward_run self z w :
  NormalizingFlow.forward self z w
  = match Spec.run (NormalizingFlow.bijectors self) z with
    | Some (zk, ls) =>
        let l := fresh (dom (heap w)) in
        Some ((zk, l), NormalizingFlow.set_log_det self l,
              set_heap w (<[l := ls]> (heap w)))
    | None => None
    end.
Proof.
  unfold NormalizingFlow.forward. rewrite bind_unfold. unfold new_list at 1.
  set (l := fresh (dom (heap w))). simpl.
  rewrite bind_unfold. unfold range, len. rewrite Nat2Z.id.
  rewrite (forward_loop (NormalizingFlow.set_log_det self l) [] _ z _ []).
  - simpl. destruct (Spec.run _ z) as [[zk ls]|]; [simpl|done].
    rewrite insert_insert_eq. reflexivity.
  - reflexivity.
  - simpl. apply lookup_insert_eq.
Qed.

End forward.

(** ** Construction *)

Lemma Tensor__None n0 n1 : (n1 < 0)%Z → Torch.Tensor_ n0 n1 = None.
Proof. intros H. unfold Torch.Tensor_. rewrite decide_False; [done|lia]. Qed.

Lemma Tensor__Some n1 :
  (0 ≤ n1)%Z →
  Torch.Tensor_ 1 n1 = Some (mkTensor 1 (Z.to_nat n1) (λ _ _, 0)).
Proof. intros H. unfold Torch.Tensor_. rewrite decide_True; [done|lia]. Qed.

Lemma PlanarFlow_init_None dim w :
  (dim < 0)%Z → PlanarFlow.__init__ dim w = None.
Proof.
  intros H. unfold PlanarFlow.__init__.
  by rewrite bind_lift, Tensor__None.
Qed.

Lemma PlanarFlow_init_Some dim w :
  (0 ≤ dim)%Z →
  ∃ f w', PlanarFlow.__init__ dim w = Some (f, w')
          ∧ PlanarFlow_wf (Z.to_nat dim) f
          ∧ heap w' = heap w.
Proof.
  intros H. unfold PlanarFlow.__init__, Torch.Tensor_1.
  repeat (rewrite bind_lift; rewrite ?Tensor__Some by lia; cbv beta iota).
  cbn. eexists _, _. split; [reflexivity|]. split; [|reflexivity].
  repeat split.
Qed.

Lemma RadialFlow_init_None dim w :
  (dim < 0)%Z → RadialFlow.__init__ dim w = None.
Proof.
  intros H. unfold RadialFlow.__init__.
  by rewrite bind_lift, Tensor__None.
Qed.

Lemma RadialFlow_init_Some dim w :
  (0 ≤ dim)%Z →
  ∃ f w', RadialFlow.__init__ dim w = Some (f, w')
          ∧ RadialFlow_wf (Z.to_nat dim) f
          ∧ heap w' = heap w.
Proof.
  intros H. unfold RadialFlow.__init__, Torch.Tensor_1.
  repeat (rewrite bind_lift; rewrite ?Tensor__Some by lia; cbv beta iota).
  cbn. eexists _, _. split; [reflexivity|]. split; [|reflexivity].
  repeat split. simpl. lia.
Qed.





Lemma Example_flows_wf : Forall (flow_wf 2) Example.flows.
Proof. repeat constructor. Qed.

Lemma Example_forward :
  ∃ zk l self' w',
    NormalizingFlow.forward Example.sequence Example.origin Example.world'
    = Some ((zk, l), self', w').
Proof.
  destruct (run_wf 2 _ Example.origin Example_flows_wf eq_refl)
    as (zk & ls & Hrun & _).
  pose proof (forward_run Example.sequence Example.origin Example.world') as H.
  change (NormalizingFlow.bijectors Example.sequence) with Example.flows in H.
  rewrite Hrun in H. cbv zeta in H. eauto.
Qed.

(** ** Sums *)

Lemma vsum_app a b : vsum (a ++ b) = vsum a + vsum b.
Proof. unfold vsum. induction a as [|x a IH]; simpl; [ring|]. rewrite IH. ring. Qed.

Lemma sum_over_ext rows cols f g :
  (∀ i j, (i < rows)%nat → (j < cols)%nat → f i j = g i j) →
  Spec.sum_over rows cols f = Spec.sum_over rows cols g.
Proof.
  intros H. unfold Spec.sum_over. f_equal.
  apply fmap_seq_ext. intros i Hi. f_equal.
  apply fmap_seq_ext. intros j Hj. by apply H.
Qed.

Lemma sum_sum_over t :
  Torch.sum t = Spec.sum_over (size0 t) (size1 t) (elem t).
Proof.
  unfold Torch.sum, Spec.sum_over, tolist. by rewrite <- list_fmap_compose.
Qed.

Lemma sum_over_shape t rows cols :
  shape t = (rows, cols) → Torch.sum t = Spec.sum_over rows cols (elem t).
Proof. intros [<- <-]%shape_inv. apply sum_sum_over. Qed.

Lemma fmap_seq_shift {A} (f : nat → A) k n :
  f <$> seq k n = (λ i, f (k + i)%nat) <$> seq 0 n.
Proof.
  replace (seq k n) with (Nat.add k <$> seq 0 n)
    by (rewrite fmap_add_seq; f_equal; lia).
  by rewrite <- list_fmap_compose.
Qed.

Lemma sum_stack a b c :
  Torch.stack a b = Some c →
  size1 c = size1 a ∧ Torch.sum c = Torch.sum a + Torch.sum b.
Proof.
  unfold Torch.stack. case_decide as Hs; [|done]. intros [= <-].
  split; [done|]. rewrite !sum_sum_over. simpl. unfold Spec.sum_over.
  rewrite seq_app, fmap_app, vsum_app. f_equal.
  - f_equal. apply fmap_seq_ext. intros i Hi. f_equal.
    apply fmap_seq_ext. intros j Hj. by rewrite decide_True.
  - f_equal. simpl. rewrite fmap_seq_shift. rewrite <- Hs.
    apply fmap_seq_ext. intros i Hi. f_equal.
    apply fmap_seq_ext. intros j Hj. rewrite decide_False by lia.
    f_equal. lia.
Qed.

Lemma cat_sum ts c :
  ts ≠ [] → Forall (λ t, size1 t = c) ts →
  ∃ t, Torch.cat ts = Some t
       ∧ size1 t = c
       ∧ Torch.sum t = vsum (Torch.sum <$> ts).
Proof.
  intros Hne Hts. induction Hts as [|a ts Ha Hts IH]; [done|].
  destruct ts as [|b ts].
  - exists a. simpl. split; [done|]. split; [done|]. ring.
  - destruct IH as (t & Ht & Hc & Hsum); [done|].
    change (Torch.cat (a :: b :: ts)) with (Torch.cat (b :: ts) ≫= Torch.stack a).
    rewrite Ht. simpl.
    destruct (Torch.stack a t) as [u|] eqn:Hu.
    + destruct (sum_stack a t u Hu) as [H1 H2]. exists u.
      split; [done|]. split; [congruence|]. rewrite H2, Hsum. reflexivity.
    + unfold Torch.stack in Hu. rewrite decide_True in Hu by congruence. done.
Qed.

(** ** The latent step *)

Lemma bind_sample {B} q n (k : Tensor → Py B) w :
  bind (Distrib.sample q n) k w
  = k (mkTensor n (Distrib.batch_shape q)
         (λ i j, Torch.expand (Distrib.loc q) 0 j
                 + Torch.expand (Distrib.scale q) 0 j
                   * normal w (i * Distrib.batch_shape q + j)%nat))
      (mkWorld (heap w) (uniform w)
         (λ k, normal w (n * Distrib.batch_shape q + k)%nat)).
Proof. reflexivity. Qed.

(** The reparameterised draw [sigma * q.sample((n_batch,)) + mu]. *)
Lemma reparameterize mu sigma w B L :
  shape mu = (B, L) → shape sigma = (B, L) →
  ∃ q eps se z,
    Distrib.Normal_ (Torch.zeros (size1 mu)) (Torch.ones (size1 sigma)) = Some q
    ∧ Distrib.batch_shape q = L
    ∧ eps = mkTensor B L
              (λ i j, Torch.expand (Distrib.loc q) 0 j
                      + Torch.expand (Distrib.scale q) 0 j
                        * normal w (i * L + j)%nat)
    ∧ Torch.mul sigma eps = Some se
    ∧ Torch.add se mu = Some z
    ∧ shape z = (B, L)
    ∧ ∀ i j, (i < B)%nat → (j < L)%nat →
        elem z i j = elem sigma i j * normal w (i * L + j)%nat + elem mu i j.
Proof.
  intros Hmu Hsigma.
  pose proof (shape_inv _ _ _ Hmu) as [_ Hm1].
  pose proof (shape_inv _ _ _ Hsigma) as [_ Hs1].
  unfold Distrib.Normal_. simpl. rewrite Hm1, Hs1, broadcast_dim_same. simpl.
  eexists _, _.
  destruct (mul_shape sigma (mkTensor B L
              (λ i j, Torch.expand (Torch.zeros L) 0 j
                      + Torch.expand (Torch.ones L) 0 j
                        * normal w (i * L + j)%nat)) B L B L B L)
    as (se & Hse & Hsse & Ese); [exact Hsigma | reflexivity | auto with torch ..|].
  destruct (add_shape se mu B L B L B L) as (z & Hz & Hsz & Ez);
    [exact Hsse | exact Hmu | auto with torch ..|].
  exists se, z. split; [reflexivity|]. split; [reflexivity|].
  split; [reflexivity|]. split; [exact Hse|]. split; [exact Hz|].
  split; [exact Hsz|]. intros i j Hi Hj. rewrite Ez, Ese. torch_index.
  simpl. unfold Torch.expand. simpl. ring.
Qed.

Lemma VAE_latent_elem x mu sigma w B L :
  shape mu = (B, L) → shape sigma = (B, L) → size0 x = B →
  ∃ z w',
    VAE.latent x (mu, sigma) w
    = Some ((z, Spec.kl B L (elem mu) (elem sigma)), w')
    ∧ shape z = (B, L)
    ∧ (∀ i j, (i < B)%nat → (j < L)%nat →
         elem z i j
         = elem sigma i j * normal w (i * L + j)%nat + elem mu i j)
    ∧ heap w' = heap w.
Proof.
  intros Hmu Hsigma Hx.
  destruct (reparameterize mu sigma w B L Hmu Hsigma)
    as (q & eps & se & z & Hq & Hbs & Heps & Hse & Hz & Hsz & Ez).
  unfold VAE.latent. rewrite bind_lift, Hq, bind_sample, Hbs, Hx, <- Heps.
  rewrite bind_lift, Hse, bind_lift, Hz.
  destruct (sub_shape (Torch.scalar_add 1 sigma) (Torch.pow mu 2) B L B L B L)
    as (a & Ha & Hsa & Ea); [exact Hsigma | exact Hmu | auto with torch ..|].
  rewrite bind_lift, Ha.
  destruct (sub_shape a (Torch.exp sigma) B L B L B L)
    as (b & Hb & Hsb & Eb); [exact Hsa | exact Hsigma | auto with torch ..|].
  rewrite bind_lift, Hb. unfold ret. cbv zeta.
  assert (Hkl : -0.5 * Torch.sum b / INR B
                = Spec.kl B L (elem mu) (elem sigma)).
  { unfold Spec.kl. do 2 f_equal.
    rewrite (sum_over_shape b B L Hsb). apply sum_over_ext.
    intros i j Hi Hj. rewrite Eb, Ea. torch_index. simpl. ring. }
  rewrite Hkl. eexists z, _. split; [reflexivity|].
  split; [exact Hsz|]. split; [exact Ez|reflexivity].
Qed.

Lemma bind_items {B} l (k : list Tensor → Py B) w vs :
  heap w !! l = Some vs → bind (items l) k w = k vs w.
Proof. intros H. unfold bind, items. by rewrite H. Qed.

Section latent.

Context {Distribution : Type}.

Implicit Types self : VAENormalizingFlow.t Distribution.

Lemma VAENormalizingFlow_latent_empty self x z_params w :
  NormalizingFlow.bijectors (VAENormalizingFlow.flow self) = [] →
  VAENormalizingFlow.latent self x z_params w = None.
Proof.
  intros Hnil. destruct z_params as [mu sigma].
  unfold VAENormalizingFlow.latent.
  rewrite bind_lift. destruct (Distrib.Normal_ _ _) as [q|]; [|done].
  rewrite bind_sample.
  rewrite bind_lift. destruct (Torch.mul sigma _) as [se|]; [|done].
  rewrite bind_lift. destruct (Torch.add se mu) as [z0|]; [|done].
  rewrite bind_unfold, forward_run, Hnil. simpl.
  repeat (rewrite bind_lift; cbv beta iota;
          try match goal with
              | |- match ?o with _ => _ end = None => destruct o; [|done]
              end).
  set (l := fresh _).
  rewrite (bind_items l _ _ []) by apply lookup_insert_eq.
  by rewrite bind_lift.
Qed.

End latent.

(** ** Bounds on the exponential *)

(** The partial sums of the series of [exp (-x)] enclose it. *)
Lemma exp_neg_enclosure (x : R) (N : nat) :
  0 <= x <= 1 →
  sum_f_R0 (tg_alt (λ i, x ^ i / INR (fact i))) (S (2 * N))
  <= exp (- x)
  <= sum_f_R0 (tg_alt (λ i, x ^ i / INR (fact i))) (2 * N).
Proof.
  intros [Hx0 Hx1].
  apply alternated_series_ineq.
  - intros n. unfold Rdiv.
    rewrite fact_simpl, mult_INR. change (x ^ S n) with (x * x ^ n).
    assert (Hf := INR_fact_lt_0 n).
    assert (Hn : 1 <= INR (S n)).
    { replace 1 with (INR 1) by reflexivity. apply le_INR. lia. }
    assert (Hp : 0 <= x ^ n) by (apply pow_le; exact Hx0).
    rewrite Rinv_mult.
    assert (Hi : 0 < / INR (fact n)) by (apply Rinv_0_lt_compat; exact Hf).
    assert (Hs : / INR (S n) <= 1).
    { rewrite <- Rinv_1. apply Rinv_le_contravar; lra. }
    assert (Hs0 : 0 < / INR (S n)) by (apply Rinv_0_lt_compat; lra).
    assert (H1 : x * / INR (S n) <= 1) by nra.
    assert (H2 : 0 <= x * / INR (S n)) by nra.
    assert (H3 : 0 <= x ^ n * / INR (fact n)) by nra.
    replace (x * x ^ n * (/ INR (S n) * / INR (fact n)))
      with ((x * / INR (S n)) * (x ^ n * / INR (fact n))) by ring.
    nra.
  - apply cv_speed_pow_fact.
  - pose proof (exp_in_ex := proj2_sig (exist_exp (- x))).
    change (proj1_sig (exist_exp (- x))) with (exp (- x)) in exp_in_ex.
    unfold exp_in, infinite_sum in exp_in_ex.
    intros eps Heps. destruct (exp_in_ex eps Heps) as [n0 Hn0].
    exists n0. intros n Hn. specialize (Hn0 n Hn).
    replace (sum_f_R0 (tg_alt (λ i, x ^ i / INR (fact i))) n)
      with (sum_f_R0 (λ i, / INR (fact i) * (- x) ^ i) n); [exact Hn0|].
    apply sum_eq. intros i _. unfold tg_alt.
    replace (- x) with (-1 * x) by ring. rewrite Rpow_mult_distr.
    unfold Rdiv. ring.
Qed.

Lemma INR_fact_2 : INR (fact 2) = 2.
Proof. simpl. lra. Qed.

Lemma INR_fact_3 : INR (fact 3) = 6.
Proof. simpl. lra. Qed.

Lemma INR_fact_4 : INR (fact 4) = 24.
Proof. simpl. lra. Qed.

Lemma INR_fact_5 : INR (fact 5) = 120.
Proof. rewrite INR_IZR_INZ. reflexivity. Qed.

Lemma INR_fact_6 : INR (fact 6) = 720.
Proof. rewrite INR_IZR_INZ. reflexivity. Qed.

Lemma INR_fact_7 : INR (fact 7) = 5040.
Proof. rewrite INR_IZR_INZ. reflexivity. Qed.

Lemma exp_neg_lower x :
  0 <= x <= 1 →
  1 - x + x^2/2 - x^3/6 + x^4/24 - x^5/120 + x^6/720 - x^7/5040 <= exp (- x).
Proof.
  intros Hx. destruct (exp_neg_enclosure x 3 Hx) as [H _].
  change (S (2 * 3)) with 7%nat in H. do 7 rewrite tech5 in H.
  unfold sum_f_R0, tg_alt in H.
  rewrite INR_fact_7, INR_fact_6, INR_fact_5, INR_fact_4, INR_fact_3,
    INR_fact_2 in H.
  change (INR (fact 1)) with 1 in H. change (INR (fact 0)) with 1 in H.
  simpl in H.
  eapply Rle_trans; [|exact H]. apply Req_le. simpl. field.
Qed.

Lemma exp_neg_upper x :
  0 <= x <= 1 →
  exp (- x) <= 1 - x + x^2/2 - x^3/6 + x^4/24 - x^5/120 + x^6/720.
Proof.
  intros Hx. destruct (exp_neg_enclosure x 3 Hx) as [_ H].
  change (2 * 3)%nat with 6%nat in H. do 6 rewrite tech5 in H.
  unfold sum_f_R0, tg_alt in H.
  rewrite INR_fact_6, INR_fact_5, INR_fact_4, INR_fact_3,
    INR_fact_2 in H.
  change (INR (fact 1)) with 1 in H. change (INR (fact 0)) with 1 in H.
  simpl in H.
  eapply Rle_trans; [exact H|]. apply Req_le. simpl. field.
Qed.

Lemma exp_exp_neg x : exp x * exp (- x) = 1.
Proof. rewrite <- exp_plus, Rplus_opp_r. apply exp_0. Qed.

(** [log(2 + 1e-9) ≈ 0.6931] *)
Lemma ln_2_eps_bounds : 0.6931 < ln (2 + 1e-9) < 0.6932.
Proof.
  split.
  - rewrite <- (ln_exp 0.6931). apply ln_increasing; [apply exp_pos|].
    assert (H := exp_neg_lower 0.6931 ltac:(lra)).
    assert (E := exp_exp_neg 0.6931).
    assert (Hq := exp_pos 0.6931).
    assert (Hl : 0.50001 <= exp (- (0.6931))).
    { eapply Rle_trans; [|exact H]. lra. }
    nra.
  - rewrite <- (ln_exp 0.6932). apply ln_increasing; [lra|].
    assert (H := exp_neg_upper 0.6932 ltac:(lra)).
    assert (E := exp_exp_neg 0.6932).
    assert (Hq := exp_pos 0.6932).
    assert (Hl : exp (- (0.6932)) <= 0.49999).
    { eapply Rle_trans; [exact H|]. lra. }
    nra.
Qed.

Lemma tanh_0 : tanh 0 = 0.
Proof. unfold tanh. rewrite sinh_0. unfold Rdiv. ring. Qed.

Lemma tolist_one_row t c : shape t = (1%nat, c) → tolist t = [row t 0].
Proof. intros [H _]%shape_inv. unfold tolist. by rewrite H. Qed.

Lemma radial_r_self v : Spec.radial_r v v = 0.
Proof.
  unfold Spec.radial_r, vnorm. rewrite zip_with_diag, <- list_fmap_compose.
  replace (vsum _) with 0; [apply sqrt_0|].
  unfold vsum. induction v as [|x v IH]; [done|].
  rewrite fmap_cons. simpl. rewrite <- IH. ring.
Qed.

(** * The claims *)

(** C1: [forward] goes through the flows in list order; for each one it
    records [log_abs_det_jacobian] of the batch as it is before the flow and
    then replaces the batch by the flow's output.  Flows of dimension [d] and
    a batch with [d] columns give one recorded entry per flow, entry [i] being
    that of flow [i], and a batch of the shape of the input. *)
Theorem NormalizingFlow_forward_order {Distribution : Type}
    (self : NormalizingFlow.t Distribution) (d : nat) (z : Tensor)
    (w : World) :
  Forall (flow_wf d) (NormalizingFlow.bijectors self) → size1 z = d →
  ∃ zk l self' w' ls,
    NormalizingFlow.forward self z w = Some ((zk, l), self', w')
    ∧ heap w' !! l = Some ls
    ∧ Spec.run (NormalizingFlow.bijectors self) z = Some (zk, ls)
    ∧ length ls = length (NormalizingFlow.bijectors self)
    ∧ shape zk = shape z
    ∧ Spec.through (NormalizingFlow.bijectors self) z = Some zk
    ∧ ∀ i f, NormalizingFlow.bijectors self !! i = Some f →
        ∃ zi, Spec.through (take i (NormalizingFlow.bijectors self)) z
              = Some zi
              ∧ ls !! i = log_abs_det_jacobian f zi.
Proof.
  intros Hwf Hd.
  destruct (run_wf d _ z Hwf Hd) as (zk & ls & Hrun & Hs & _).
  rewrite forward_run, Hrun. simpl.
  eexists zk, _, _, _, ls. split; [reflexivity|]. simpl.
  split; [apply lookup_insert_eq|]. split; [done|].
  split; [by eapply run_length|]. split; [done|].
  split; [by eapply run_through|].
  intros i f Hi. destruct (run_lookup _ _ _ _ i f Hrun Hi) as (zi & ? & ?).
  eauto.
Qed.

Lemma NormalizingFlow_forward_order_witness :
  ∃ zk l self' w' ls,
    NormalizingFlow.forward Example.sequence Example.origin Example.world'
    = Some ((zk, l), self', w')
    ∧ heap w' !! l = Some ls
    ∧ Spec.run Example.flows Example.origin = Some (zk, ls)
    ∧ length ls = 2%nat
    ∧ shape zk = (1%nat, 2%nat)
    ∧ Spec.through Example.flows Example.origin = Some zk
    ∧ ∀ i f, Example.flows !! i = Some f →
        ∃ zi, Spec.through (take i Example.flows) Example.origin = Some zi
              ∧ ls !! i = log_abs_det_jacobian f zi.
Proof.
  exact (NormalizingFlow_forward_order Example.sequence 2 Example.origin
           Example.world' Example_flows_wf eq_refl).
Defined.

(** C2: for parameters [w], [u], [b] of a planar flow and a batch [z],
    [log_abs_det_jacobian] returns, per sample, [log(|1 + psi·u| + 1e-9)] with
    [psi = (1 - tanh(w·z+b)^2) * w]; for [w = [1,0]], [u = [1,0]], [b = 0] and
    [z = [[0,0]]] the result is [log(2 + 1e-9)], which is 0.6931 to four
    decimals, and the forward output is [[0,0]]. *)
Theorem PlanarFlow_log_abs_det_jacobian_formula :
  (∀ (d : nat) (self : PlanarFlow.t) (z : Tensor),
     PlanarFlow_wf d self → size1 z = d →
     ∃ l, PlanarFlow.log_abs_det_jacobian self z = Some l
          ∧ shape l = (size0 z, 1%nat)
          ∧ tolist l
            = (λ zi, [Spec.planar_log_det (row (PlanarFlow.weight self) 0)
                        (row (PlanarFlow.scale self) 0)
                        (elem (PlanarFlow.bias self) 0 0) zi]) <$> tolist z)
  ∧ (∃ l y,
       PlanarFlow.log_abs_det_jacobian Example.planar Example.origin = Some l
       ∧ tolist l = [[ln (2 + 1e-9)]]
       ∧ 0.6931 < ln (2 + 1e-9) < 0.6932
       ∧ PlanarFlow._call Example.planar Example.origin = Some y
       ∧ tolist y = [[0; 0]]).
Proof.
  split.
  { intros d self z Hwf Hd.
    destruct (PlanarFlow_ladj_elem d self z Hwf Hd) as (l & Hl & Hs & El).
    exists l. split; [exact Hl|]. split; [exact Hs|].
    apply shape_inv in Hs as [Hs0 Hs1].
    unfold tolist. rewrite Hs0, <- list_fmap_compose.
    apply fmap_seq_ext. intros i Hi.
    rewrite (row_unfold l i 1 Hs1). simpl. f_equal. by apply El. }
  assert (Hwf : PlanarFlow_wf 2 Example.planar) by (repeat split).
  destruct (PlanarFlow_ladj_elem 2 Example.planar Example.origin Hwf eq_refl)
    as (l & Hl & Hsl & El).
  destruct (PlanarFlow_call_elem 2 Example.planar Example.origin Hwf eq_refl)
    as (y & Hy & Hsy & Ey).
  assert (T : tanh (vdot [1; 0] [0; 0] + 0) = 0).
  { unfold vdot, vsum. simpl.
    replace (1 * 0 + (0 * 0 + 0) + 0) with 0 by ring. apply tanh_0. }
  exists l, y. split; [exact Hl|]. split; [|split; [apply ln_2_eps_bounds|]].
  - rewrite (tolist_one_row l 1 Hsl), (row_unfold l 0 1)
      by (by apply shape_inv in Hsl as [_ ?]).
    simpl. rewrite (El 0%nat) by (simpl; lia).
    unfold Spec.planar_log_det, Spec.planar_psi. simpl row. simpl fmap.
    change (row (Torch.tensor [[1; 0]]) 0) with [1; 0].
    change (row Example.origin 0) with [0; 0]. rewrite T. unfold vdot, vsum. simpl.
    replace (1 + ((1 - 0 * (0 * 1)) * 1 * 1 + ((1 - 0 * (0 * 1)) * 0 * 0 + 0)))
      with 2 by ring.
    rewrite Rabs_pos_eq by lra. reflexivity.
  - split; [exact Hy|].
    rewrite (tolist_one_row y 2 Hsy), (row_unfold y 0 2)
      by (by apply shape_inv in Hsy as [_ ?]).
    simpl. rewrite (Ey 0%nat 0%nat), (Ey 0%nat 1%nat) by (simpl; lia).
    change (row (PlanarFlow.weight Example.planar) 0) with [1; 0].
    change (row Example.origin 0) with [0; 0].
    simpl elem. rewrite T. do 2 f_equal; [ring|f_equal; ring].
Qed.

Lemma PlanarFlow_log_abs_det_jacobian_formula_witness :
  PlanarFlow_wf 2 Example.planar ∧ size1 Example.centre = 2%nat
  ∧ ∃ l, PlanarFlow.log_abs_det_jacobian Example.planar Example.centre = Some l
       ∧ shape l = (size0 Example.centre, 1%nat)
       ∧ tolist l
         = (λ zi, [Spec.planar_log_det (row (PlanarFlow.weight Example.planar) 0)
                     (row (PlanarFlow.scale Example.planar) 0)
                     (elem (PlanarFlow.bias Example.planar) 0 0) zi])
           <$> tolist Example.centre.
Proof.
  assert (H1 : PlanarFlow_wf 2 Example.planar) by (repeat split).
  assert (H2 : size1 Example.centre = 2%nat) by reflexivity.
  split; [exact H1|]. split; [exact H2|].
  exact (proj1 PlanarFlow_log_abs_det_jacobian_formula 2%nat Example.planar
           Example.centre H1 H2).
Defined.

(** C3: for parameters [z0], [alpha], [beta] of a radial flow of dimension
    [dim] and a batch [z] with [dim] columns, [log_abs_det_jacobian] returns
    one value per sample, [log(|det| + 1e-9)] with [r = ||z - z0||],
    [h = 1/(alpha + r)], [hp = -1/(alpha+r)^2], [bh = beta*h] and
    [det = ((1+bh)^dim - 1) * (1 + bh + beta*hp*r)]. *)
Theorem RadialFlow_log_abs_det_jacobian_formula (dim : nat)
    (self : RadialFlow.t) (z : Tensor) :
  RadialFlow_wf dim self → size1 z = dim →
  ∃ l, RadialFlow.log_abs_det_jacobian self z = Some l
       ∧ shape l = (size0 z, 1%nat)
       ∧ tolist l
         = (λ zi, [Spec.radial_log_det (row (RadialFlow.z0 self) 0)
                     (elem (RadialFlow.alpha self) 0 0)
                     (elem (RadialFlow.beta self) 0 0) dim zi]) <$> tolist z.
Proof.
  intros Hwf Hd.
  destruct (RadialFlow_ladj_elem dim self z Hwf Hd) as (l & Hl & Hs & El).
  exists l. split; [exact Hl|]. split; [exact Hs|].
  apply shape_inv in Hs as [Hs0 Hs1].
  unfold tolist. rewrite Hs0, <- list_fmap_compose.
  apply fmap_seq_ext. intros i Hi.
  rewrite (row_unfold l i 1 Hs1). simpl. f_equal. by apply El.
Qed.

Lemma RadialFlow_log_abs_det_jacobian_formula_witness :
  RadialFlow_wf 2 Example.radial ∧ size1 Example.origin = 2%nat
  ∧ ∃ l,
      RadialFlow.log_abs_det_jacobian Example.radial Example.origin = Some l
      ∧ shape l = (size0 Example.origin, 1%nat)
      ∧ tolist l
        = (λ zi, [Spec.radial_log_det (row (RadialFlow.z0 Example.radial) 0)
                    (elem (RadialFlow.alpha Example.radial) 0 0)
                    (elem (RadialFlow.beta Example.radial) 0 0) 2 zi])
          <$> tolist Example.origin.
Proof.
  assert (H1 : RadialFlow_wf 2 Example.radial) by (repeat split).
  assert (H2 : size1 Example.origin = 2%nat) by reflexivity.
  split; [exact H1|]. split; [exact H2|].
  exact (RadialFlow_log_abs_det_jacobian_formula 2 Example.radial
           Example.origin H1 H2).
Defined.

(** C4, the counterexample: with a sequence that holds no flow, [forward]
    returns an empty list of log-determinants and [latent] raises
    ([torch.cat] of the empty list) instead of returning a pair. *)
Lemma VAENormalizingFlow_latent_no_flows :
  (∀ z, ∃ l self' w',
     NormalizingFlow.forward Example.no_flows z Example.world'
     = Some ((z, l), self', w')
     ∧ heap w' !! l = Some [])
  ∧ Torch.cat [] = None
  ∧ VAENormalizingFlow.latent Example.vae_no_flows Example.origin
      (Example.mu, Example.sigma) Example.world'
    = None.
Proof.
  split; [|split; [done|by apply VAENormalizingFlow_latent_empty]].
  intros z. rewrite forward_run. simpl. eexists _, _, _.
  split; [reflexivity|]. simpl. apply lookup_insert_eq.
Qed.

(** C4, as the code has it: with a sequence of at least one flow, [latent]
    returns [(zk, logs / batch_size)] where [zk] is the output of the flows on
    the draw [z0 = sigma * eps + mu], whatever [eps] is, and
    [logs = sum(log_q_z0 - log_p_zk)] minus the sum of all recorded
    log-determinants, with [log_p_zk = -0.5 * zk^2] and
    [log_q_z0 = -0.5 * (log(sigma) + (z0-mu)^2 / sigma)]. *)
Theorem VAENormalizingFlow_latent_free_energy {Distribution : Type}
    (self : VAENormalizingFlow.t Distribution) (x mu sigma : Tensor)
    (w : World) (batch_size dim : nat) :
  NormalizingFlow.bijectors (VAENormalizingFlow.flow self) ≠ [] →
  Forall (flow_wf dim)
    (NormalizingFlow.bijectors (VAENormalizingFlow.flow self)) →
  shape mu = (batch_size, dim) → shape sigma = (batch_size, dim) →
  size0 x = batch_size →
  ∃ z0 zk ls self' w',
    VAENormalizingFlow.latent self x (mu, sigma) w
    = Some ((zk, Spec.free_energy batch_size dim (elem mu) (elem sigma)
                   (elem z0) (elem zk) ls), self', w')
    ∧ shape z0 = (batch_size, dim)
    ∧ (∀ i j, (i < batch_size)%nat → (j < dim)%nat →
         elem z0 i j
         = elem sigma i j * normal w (i * dim + j)%nat + elem mu i j)
    ∧ Spec.run (NormalizingFlow.bijectors (VAENormalizingFlow.flow self)) z0
      = Some (zk, ls).
Proof.
  revert batch_size dim. intros B L Hne Hwf Hmu Hsigma Hx.
  destruct (reparameterize mu sigma w B L Hmu Hsigma)
    as (q & eps & se & z0 & Hq & Hbs & Heps & Hse & Hz & Hsz & Ez).
  pose proof (shape_inv _ _ _ Hsz) as [Hz0 Hz1].
  destruct (run_wf L _ z0 Hwf Hz1) as (zk & ls & Hrun & Hszk & Hls).
  rewrite Hsz, Hz0 in *.
  unfold VAENormalizingFlow.latent.
  rewrite bind_lift, Hq, bind_sample, Hbs, Hx, <- Heps.
  rewrite bind_lift, Hse, bind_lift, Hz, bind_unfold, forward_run, Hrun.
  cbv zeta beta iota.
  set (l := fresh (dom (heap _))). set (w1 := set_heap _ _).
  destruct (mul_shape (Torch.scalar_mul (-0.5) zk) zk B L B L B L)
    as (lp & Hlp & Hslp & Elp); [exact Hszk | exact Hszk | auto with torch ..|].
  rewrite bind_lift, Hlp.
  destruct (sub_shape z0 mu B L B L B L)
    as (d & Hd & Hsd & Ed); [exact Hsz | exact Hmu | auto with torch ..|].
  rewrite bind_lift, Hd, bind_lift.
  destruct (mul_shape d d B L B L B L)
    as (d2 & Hd2 & Hsd2 & Ed2); [exact Hsd | exact Hsd | auto with torch ..|].
  rewrite bind_lift, Hd2.
  destruct (mul_shape d2 (Torch.reciprocal sigma) B L B L B L)
    as (q2 & Hq2 & Hsq2 & Eq2); [exact Hsd2 | exact Hsigma | auto with torch ..|].
  rewrite bind_lift, Hq2.
  destruct (add_shape (Torch.log sigma) q2 B L B L B L)
    as (s & Hs & Hss & Es); [exact Hsigma | exact Hsq2 | auto with torch ..|].
  rewrite bind_lift, Hs.
  destruct (sub_shape (Torch.scalar_mul (-0.5) s) lp B L B L B L)
    as (diff & Hdiff & Hsdiff & Ediff); [exact Hss | exact Hslp | auto with torch ..|].
  rewrite bind_lift, Hdiff.
  rewrite (bind_items l _ w1 ls) by apply lookup_insert_eq.
  destruct (cat_sum ls 1) as (ladj & Hladj & _ & Hsum).
  { intros ->. apply run_length in Hrun. by destruct (NormalizingFlow.bijectors _). }
  { eapply Forall_impl; [exact Hls|]. by intros t [_ ?]%shape_inv. }
  rewrite bind_lift, Hladj. unfold ret. cbv zeta.
  assert (Hfe : (Torch.sum diff - Torch.sum ladj) / INR B
                = Spec.free_energy B L (elem mu) (elem sigma) (elem z0)
                    (elem zk) ls).
  { unfold Spec.free_energy. rewrite Hsum. do 2 f_equal.
    rewrite (sum_over_shape diff B L Hsdiff). apply sum_over_ext.
    intros i j Hi Hj. rewrite Ediff. simpl. rewrite Es, Elp. simpl.
    rewrite Eq2, Ed2, Ed. simpl. torch_index.
    unfold Spec.log_q_z0, Spec.log_p_zk, Rdiv. ring. }
  rewrite Hfe. eexists z0, zk, ls, _, _. split; [reflexivity|].
  split; [done|]. split; [exact Ez|exact Hrun].
Qed.

Lemma VAENormalizingFlow_latent_free_energy_witness :
  ∃ z0 zk ls self' w',
    VAENormalizingFlow.latent Example.vae Example.origin
      (Example.mu, Example.sigma) Example.world'
    = Some ((zk, Spec.free_energy 1 2 (elem Example.mu) (elem Example.sigma)
                   (elem z0) (elem zk) ls), self', w')
    ∧ shape z0 = (1%nat, 2%nat)
    ∧ (∀ i j, (i < 1)%nat → (j < 2)%nat →
         elem z0 i j
         = elem Example.sigma i j * normal Example.world' (i * 2 + j)%nat
           + elem Example.mu i j)
    ∧ Spec.run Example.flows z0 = Some (zk, ls).
Proof.
  apply (VAENormalizingFlow_latent_free_energy Example.vae Example.origin
           Example.mu Example.sigma Example.world' 1 2).
  - discriminate.
  - exact Example_flows_wf.
  - reflexivity.
  - reflexivity.
  - reflexivity.
Defined.

(** C5: in plain mode the regularisation term that [latent] returns is
    [kl = -0.5 * sum(1 + sigma - mu^2 - exp(sigma)) / batch_size], whatever
    the draw; for [mu = 0], [sigma = 0], batch size 1 and dimension 1 it is
    0. *)
Theorem VAE_latent_kl :
  (∀ (x mu sigma : Tensor) (w : World) (batch_size dim : nat),
     shape mu = (batch_size, dim) → shape sigma = (batch_size, dim) →
     size0 x = batch_size →
     ∃ z w',
       VAE.latent x (mu, sigma) w
       = Some ((z, Spec.kl batch_size dim (elem mu) (elem sigma)), w')
       ∧ shape z = (batch_size, dim)
       ∧ ∀ i j, (i < batch_size)%nat → (j < dim)%nat →
           elem z i j
           = elem sigma i j * normal w (i * dim + j)%nat + elem mu i j)
  ∧ (∀ (x : Tensor) (w : World),
       size0 x = 1%nat →
       ∃ z w', VAE.latent x (Example.zero, Example.zero) w = Some ((z, 0), w')).
Proof.
  split.
  - intros x mu sigma w B L Hmu Hsigma Hx.
    destruct (VAE_latent_elem x mu sigma w B L Hmu Hsigma Hx)
      as (z & w' & H & Hs & E & _). eauto.
  - intros x w Hx.
    destruct (VAE_latent_elem x Example.zero Example.zero w 1 1 eq_refl eq_refl Hx)
      as (z & w' & H & _).
    exists z, w'. rewrite H. do 3 f_equal.
    unfold Spec.kl, Spec.sum_over, vsum. simpl. rewrite exp_0. lra.
Qed.

Lemma VAE_latent_kl_witness :
  ∃ z w',
    VAE.latent Example.origin (Example.mu, Example.sigma) Example.world
    = Some ((z, Spec.kl 1 2 (elem Example.mu) (elem Example.sigma)), w')
    ∧ shape z = (1%nat, 2%nat)
    ∧ ∀ i j, (i < 1)%nat → (j < 2)%nat →
        elem z i j
        = elem Example.sigma i j * normal Example.world (i * 2 + j)%nat
          + elem Example.mu i j.
Proof.
  exact (proj1 VAE_latent_kl Example.origin Example.mu Example.sigma
           Example.world 1%nat 2%nat eq_refl eq_refl eq_refl).
Defined.



(** C7: for parameters [w], [u], [b] of a planar flow of dimension [d] and a
    batch [z] with [d] columns, [PlanarFlow._call] returns a batch of the shape
    of [z] whose every sample is [z + u * tanh(w·z + b)]. *)
Theorem PlanarFlow_call_formula (d : nat) (self : PlanarFlow.t) (z : Tensor) :
  PlanarFlow_wf d self → size1 z = d →
  ∃ y, PlanarFlow._call self z = Some y
       ∧ shape y = shape z
       ∧ ∀ i, (i < size0 z)%nat →
           row y i
           = Spec.planar_forward (row (PlanarFlow.weight self) 0)
               (row (PlanarFlow.scale self) 0)
               (elem (PlanarFlow.bias self) 0 0) (row z i).
Proof.
  intros Hwf Hd.
  destruct (PlanarFlow_call_elem d self z Hwf Hd) as (y & Hy & Hs & Ey).
  exists y. split; [exact Hy|]. split; [exact Hs|]. intros i Hi.
  destruct Hwf as (_ & [_ Hu]%shape_inv & _).
  apply shape_inv in Hs as [_ Hs1].
  unfold Spec.planar_forward.
  rewrite (row_unfold y i d), (row_unfold z i d),
    (row_unfold (PlanarFlow.scale self) 0 d), zip_with_fmap_seq by congruence.
  apply fmap_seq_ext. intros j Hj.
  rewrite <- (row_unfold z i d) by done. by apply Ey.
Qed.

Lemma PlanarFlow_call_formula_witness :
  PlanarFlow_wf 2 Example.planar ∧ size1 Example.origin = 2%nat
  ∧ ∃ y, PlanarFlow._call Example.planar Example.origin = Some y
       ∧ shape y = shape Example.origin
       ∧ ∀ i, (i < size0 Example.origin)%nat →
           row y i
           = Spec.planar_forward (row (PlanarFlow.weight Example.planar) 0)
               (row (PlanarFlow.scale Example.planar) 0)
               (elem (PlanarFlow.bias Example.planar) 0 0)
               (row Example.origin i).
Proof.
  assert (H1 : PlanarFlow_wf 2 Example.planar) by (repeat split).
  assert (H2 : size1 Example.origin = 2%nat) by reflexivity.
  split; [exact H1|]. split; [exact H2|].
  exact (PlanarFlow_call_formula 2 Example.planar Example.origin H1 H2).
Defined.

(** C8: when every sample of the input is the centre [z0] and [alpha ≠ 0],
    the radial flow returns [z0] for every sample: there [r = 0] and the
    displacement [beta*h*(z - z0)] vanishes. *)
Theorem RadialFlow_call_at_centre (d : nat) (self : RadialFlow.t)
    (z : Tensor) :
  RadialFlow_wf d self → size1 z = d →
  (∀ i, (i < size0 z)%nat → row z i = row (RadialFlow.z0 self) 0) →
  elem (RadialFlow.alpha self) 0 0 ≠ 0 →
  ∃ y, RadialFlow._call self z = Some y
       ∧ shape y = shape z
       ∧ ∀ i, (i < size0 z)%nat →
           Spec.radial_r (row (RadialFlow.z0 self) 0) (row z i) = 0
           ∧ row y i = row (RadialFlow.z0 self) 0.
Proof.
  intros Hwf Hd Hz _.
  destruct (RadialFlow_call_elem d self z Hwf Hd) as (y & Hy & Hs & Ey).
  exists y. split; [exact Hy|]. split; [exact Hs|]. intros i Hi.
  split; [rewrite (Hz i Hi); apply radial_r_self|].
  destruct Hwf as ([_ H0]%shape_inv & _).
  apply shape_inv in Hs as [_ Hs1].
  apply row_ext; [congruence|]. intros j Hj.
  assert (Hj' : (j < d)%nat) by congruence.
  rewrite (Ey i j Hi Hj').
  assert (E : elem z i j = elem (RadialFlow.z0 self) 0 j).
  { specialize (Hz i Hi). apply (f_equal (λ l, l !! j)) in Hz.
    rewrite !row_lookup in Hz by congruence. congruence. }
  rewrite E. unfold Rdiv. ring.
Qed.

Lemma RadialFlow_call_at_centre_witness :
  ∃ y, RadialFlow._call Example.radial Example.centre = Some y
       ∧ shape y = shape Example.centre
       ∧ ∀ i, (i < size0 Example.centre)%nat →
           Spec.radial_r (row (RadialFlow.z0 Example.radial) 0)
             (row Example.centre i) = 0
           ∧ row y i = row (RadialFlow.z0 Example.radial) 0.
Proof.
  apply (RadialFlow_call_at_centre 2 Example.radial Example.centre).
  - repeat split.
  - reflexivity.
  - intros i Hi. simpl in Hi. assert (i = 0%nat) as -> by lia. reflexivity.
  - simpl. lra.
Defined.

(** C9, the counterexample: a call of [forward] changes the object; its
    attribute [log_det] refers to another list after the call. *)
Lemma NormalizingFlow_forward_assigns_log_det :
  ∃ r self' w',
    NormalizingFlow.forward Example.sequence Example.origin Example.world'
    = Some (r, self', w')
    ∧ self' ≠ Example.sequence.
Proof.
  destruct (run_wf 2 _ Example.origin Example_flows_wf eq_refl)
    as (zk & ls & Hrun & _).
  pose proof (forward_run Example.sequence Example.origin Example.world') as H.
  change (NormalizingFlow.bijectors Example.sequence) with Example.flows in H.
  rewrite Hrun in H. cbv zeta in H.
  eexists _, _, _. split; [exact H|].
  intros E. apply (f_equal NormalizingFlow.log_det) in E.
  pose proof (is_fresh (dom (heap Example.world'))) as Hf.
  change (fresh (dom (heap Example.world')) = 0%nat) in E.
  rewrite E in Hf. apply Hf. unfold Example.world'. simpl. set_solver.
Qed.

(** C9, as the code has it: every call of [forward] creates the list it
    records into, and this list ends with one entry per flow whatever earlier
    calls recorded; lists that existed before the call and the generator are
    left as they were.  The object, however, is updated: its attribute
    [log_det] is set to the new list, which is also the one returned. *)
Theorem NormalizingFlow_forward_frame {Distribution : Type}
    (self self' : NormalizingFlow.t Distribution) (z zk : Tensor)
    (w w' : World) (l : nat) :
  NormalizingFlow.forward self z w = Some ((zk, l), self', w') →
  (l ∉ dom (heap w))
  ∧ self' = NormalizingFlow.set_log_det self l
  ∧ (∀ l', l' ≠ l → heap w' !! l' = heap w !! l')
  ∧ (∃ ls, heap w' !! l = Some ls
           ∧ length ls = length (NormalizingFlow.bijectors self))
  ∧ uniform w' = uniform w
  ∧ normal w' = normal w.
Proof.
  rewrite forward_run.
  destruct (Spec.run _ z) as [[zk' ls]|] eqn:Hrun; [simpl|done].
  intros [= <- <- <- <-]. split; [apply is_fresh|]. split; [done|].
  split; [intros l' Hl'; simpl; by rewrite lookup_insert_ne|].
  split; [|done]. exists ls. simpl. rewrite lookup_insert_eq.
  split; [done|]. by eapply run_length.
Qed.

Lemma NormalizingFlow_forward_frame_witness :
  ∃ zk l self' w',
    NormalizingFlow.forward Example.sequence Example.origin Example.world'
    = Some ((zk, l), self', w')
    ∧ (l ∉ dom (heap Example.world'))
    ∧ self' = NormalizingFlow.set_log_det Example.sequence l
    ∧ (∀ l', l' ≠ l → heap w' !! l' = heap Example.world' !! l')
    ∧ (∃ ls, heap w' !! l = Some ls ∧ length ls = 2%nat)
    ∧ uniform w' = uniform Example.world'
    ∧ normal w' = normal Example.world'.
Proof.
  destruct Example_forward as (zk & l & self' & w' & H).
  exists zk, l, self', w'. split; [exact H|].
  exact (NormalizingFlow_forward_frame _ _ _ _ _ _ _ H).
Defined.

(** C10, the counterexample: with [dim = 0] both constructors return a flow,
    whose vectors are empty. *)
Lemma flow_init_accepts_zero :
  (∃ f w', PlanarFlow.__init__ 0 Example.world = Some (f, w')
           ∧ shape (PlanarFlow.weight f) = (1%nat, 0%nat))
  ∧ (∃ f w', RadialFlow.__init__ 0 Example.world = Some (f, w')
             ∧ shape (RadialFlow.z0 f) = (1%nat, 0%nat)).
Proof.
  split.
  - destruct (PlanarFlow_init_Some 0 Example.world) as (f & w' & H & Hwf & _);
      [lia|]. exists f, w'. split; [exact H|]. apply Hwf.
  - destruct (RadialFlow_init_Some 0 Example.world) as (f & w' & H & Hwf & _);
      [lia|]. exists f, w'. split; [exact H|]. apply Hwf.
Qed.

(** C10, as the code has it: the constructors have no check of their own;
    the construction is rejected exactly when [dim] is negative, where the
    allocation of the parameters raises, and for every other [dim], zero
    included, it returns a flow whose vectors have [dim] entries. *)
Theorem flow_init_rejects_negative_only (dim : Z) (w : World) :
  (PlanarFlow.__init__ dim w = None ↔ (dim < 0)%Z)
  ∧ (RadialFlow.__init__ dim w = None ↔ (dim < 0)%Z)
  ∧ ((0 ≤ dim)%Z →
     (∃ f w', PlanarFlow.__init__ dim w = Some (f, w')
              ∧ PlanarFlow_wf (Z.to_nat dim) f)
     ∧ (∃ f w', RadialFlow.__init__ dim w = Some (f, w')
                ∧ RadialFlow_wf (Z.to_nat dim) f)).
Proof.
  split; [|split].
  - split; [|apply PlanarFlow_init_None]. intros H.
    destruct (decide (dim < 0)%Z) as [|Hd]; [done|].
    destruct (PlanarFlow_init_Some dim w) as (f & w' & H' & _); [lia|].
    congruence.
  - split; [|apply RadialFlow_init_None]. intros H.
    destruct (decide (dim < 0)%Z) as [|Hd]; [done|].
    destruct (RadialFlow_init_Some dim w) as (f & w' & H' & _); [lia|].
    congruence.
  - intros H. split.
    + destruct (PlanarFlow_init_Some dim w H) as (f & w' & ? & ? & _). eauto.
    + destruct (RadialFlow_init_Some dim w H) as (f & w' & ? & ? & _). eauto.
Qed.

Lemma flow_init_rejects_negative_only_witness :
  (PlanarFlow.__init__ (-1) Example.world = None ↔ (-1 < 0)%Z)
  ∧ (RadialFlow.__init__ (-1) Example.world = None ↔ (-1 < 0)%Z)
  ∧ (∃ f w', PlanarFlow.__init__ 4 Example.world = Some (f, w')
              ∧ PlanarFlow_wf 4 f)
  ∧ (∃ f w', RadialFlow.__init__ 4 Example.world = Some (f, w')
                ∧ RadialFlow_wf 4 f).
Proof.
  split; [|split].
  - exact (proj1 (flow_init_rejects_negative_only (-1) Example.world)).
  - exact (proj1 (proj2 (flow_init_rejects_negative_only (-1) Example.world))).
  - apply (proj2 (proj2 (flow_init_rejects_negative_only 4 Example.world))).
    lia.
Defined.

(** * Further properties *)

(** ** The flows *)

Lemma tanh_bound x : -1 < tanh x < 1.
Proof.
  unfold tanh, sinh, cosh.
  assert (H1 := exp_pos x). assert (H2 := exp_pos (- x)).
  assert (Hc : 0 < (exp x + exp (- x)) / 2) by lra.
  split.
  - apply Rmult_lt_reg_r with ((exp x + exp (- x)) / 2); [exact Hc|].
    unfold Rdiv at 2. rewrite Rmult_assoc, Rinv_l by lra. lra.
  - apply Rmult_lt_reg_r with ((exp x + exp (- x)) / 2); [exact Hc|].
    unfold Rdiv at 1. rewrite Rmult_assoc, Rinv_l by lra. lra.
Qed.

Lemma PlanarFlow_call_rows (d : nat) (self : PlanarFlow.t) (z : Tensor) :
  PlanarFlow_wf d self → size1 z = d →
  ∃ y, PlanarFlow._call self z = Some y
       ∧ shape y = shape z
       ∧ ∀ i, (i < size0 z)%nat →
           row y i
           = Spec.planar_forward (row (PlanarFlow.weight self) 0)
               (row (PlanarFlow.scale self) 0)
               (elem (PlanarFlow.bias self) 0 0) (row z i).
Proof.
  intros Hwf Hd.
  destruct (PlanarFlow_call_elem d self z Hwf Hd) as (y & Hy & Hs & Ey).
  exists y. split; [exact Hy|]. split; [exact Hs|]. intros i Hi.
  destruct Hwf as (_ & [_ Hu]%shape_inv & _).
  apply shape_inv in Hs as [_ Hs1].
  unfold Spec.planar_forward.
  rewrite (row_unfold y i d), (row_unfold z i d),
    (row_unfold (PlanarFlow.scale self) 0 d), zip_with_fmap_seq by congruence.
  apply fmap_seq_ext. intros j Hj.
  rewrite <- (row_unfold z i d) by done. by apply Ey.
Qed.

(** X1: the planar flow moves coordinate [j] of a sample by at most [|u_j|]. *)
Theorem PlanarFlow_call_displacement (d : nat) (self : PlanarFlow.t)
    (z : Tensor) :
  PlanarFlow_wf d self → size1 z = d →
  ∃ y, PlanarFlow._call self z = Some y
       ∧ ∀ i j, (i < size0 z)%nat → (j < d)%nat →
           Rabs (elem y i j - elem z i j)
           <= Rabs (elem (PlanarFlow.scale self) 0 j).
Proof.
  intros Hwf Hd.
  destruct (PlanarFlow_call_elem d self z Hwf Hd) as (y & Hy & _ & Ey).
  exists y. split; [exact Hy|]. intros i j Hi Hj. rewrite (Ey i j Hi Hj).
  assert (Ht := tanh_bound (vdot (row (PlanarFlow.weight self) 0) (row z i)
                            + elem (PlanarFlow.bias self) 0 0)).
  set (t := tanh _) in *.
  replace (elem z i j + elem (PlanarFlow.scale self) 0 j * t - elem z i j)
    with (elem (PlanarFlow.scale self) 0 j * t) by ring.
  rewrite Rabs_mult. rewrite <- (Rmult_1_r (Rabs (elem _ 0 j))) at 2.
  apply Rmult_le_compat_l; [apply Rabs_pos|].
  apply Rabs_le. lra.
Qed.

Lemma PlanarFlow_call_displacement_witness :
  ∃ y, PlanarFlow._call Example.planar Example.origin = Some y
       ∧ ∀ i j, (i < size0 Example.origin)%nat → (j < 2)%nat →
           Rabs (elem y i j - elem Example.origin i j)
           <= Rabs (elem (PlanarFlow.scale Example.planar) 0 j).
Proof.
  apply (PlanarFlow_call_displacement 2 Example.planar Example.origin).
  - repeat split.
  - reflexivity.
Defined.
Lemma vdot_zero_r a n (u : nat → R) :
  (∀ j, (j < n)%nat → u j = 0) → vdot a (u <$> seq 0 n) = 0.
Proof.
  intros H. rewrite (fmap_seq_ext u (λ _, 0) n H).
  unfold vdot, vsum. generalize (seq 0 n). intros l. revert a.
  induction l as [|k l IH]; intros [|x a]; simpl; try reflexivity.
  rewrite IH. ring.
Qed.

(** X2: a planar flow whose scale [u] is zero is the identity, and the value
    it records is [log(1 + 1e-9)] for every sample. *)
Theorem PlanarFlow_zero_scale (d : nat) (self : PlanarFlow.t) (z : Tensor) :
  PlanarFlow_wf d self → size1 z = d →
  (∀ j, (j < d)%nat → elem (PlanarFlow.scale self) 0 j = 0) →
  ∃ y l, PlanarFlow._call self z = Some y
         ∧ PlanarFlow.log_abs_det_jacobian self z = Some l
         ∧ tolist y = tolist z
         ∧ ∀ i, (i < size0 z)%nat → elem l i 0 = ln (1 + 1e-9).
Proof.
  intros Hwf Hd Hu.
  destruct (PlanarFlow_call_elem d self z Hwf Hd) as (y & Hy & Hs & Ey).
  destruct (PlanarFlow_ladj_elem d self z Hwf Hd) as (l & Hl & _ & El).
  exists y, l. split; [exact Hy|]. split; [exact Hl|]. split.
  - apply shape_inv in Hs as [Hs0 Hs1]. unfold tolist. rewrite Hs0.
    apply fmap_seq_ext. intros i Hi. apply row_ext; [done|].
    intros j Hj. rewrite Hs1, Hd in Hj. rewrite (Ey i j Hi Hj), (Hu j Hj). ring.
  - intros i Hi. rewrite (El i Hi). unfold Spec.planar_log_det.
    destruct Hwf as (_ & [_ Hsu]%shape_inv & _).
    rewrite (row_unfold (PlanarFlow.scale self) 0 d Hsu), vdot_zero_r by done.
    rewrite Rplus_0_r, Rabs_R1. reflexivity.
Qed.

Lemma PlanarFlow_zero_scale_witness :
  ∃ y l, PlanarFlow._call Fixture.planar_still Example.origin = Some y
         ∧ PlanarFlow.log_abs_det_jacobian Fixture.planar_still Example.origin
           = Some l
         ∧ tolist y = tolist Example.origin
         ∧ ∀ i, (i < size0 Example.origin)%nat → elem l i 0 = ln (1 + 1e-9).
Proof.
  apply (PlanarFlow_zero_scale 2 Fixture.planar_still Example.origin).
  - repeat split.
  - reflexivity.
  - intros [|[|j]] Hj; [reflexivity|reflexivity|lia].
Defined.






(** ** Samples are processed one by one *)

Lemma call_row_local d f z z' i i' :
  flow_wf d f → size1 z = d → size1 z' = d →
  (i < size0 z)%nat → (i' < size0 z')%nat → row z i = row z' i' →
  ∃ y y', call f z = Some y ∧ call f z' = Some y'
          ∧ shape y = shape z ∧ shape y' = shape z'
          ∧ row y i = row y' i'.
Proof.
  intros Hwf Hd Hd' Hi Hi' Hr. destruct f as [f|f]; simpl in *.
  - destruct (PlanarFlow_call_rows d f z Hwf Hd) as (y & Hy & Hs & Ey).
    destruct (PlanarFlow_call_rows d f z' Hwf Hd') as (y' & Hy' & Hs' & Ey').
    exists y, y'. repeat (split; [done|]).
    by rewrite (Ey i Hi), (Ey' i' Hi'), Hr.
  - destruct (RadialFlow_call_rows d f z Hwf Hd) as (y & Hy & Hs & Ey).
    destruct (RadialFlow_call_rows d f z' Hwf Hd') as (y' & Hy' & Hs' & Ey').
    exists y, y'. repeat (split; [done|]).
    by rewrite (Ey i Hi), (Ey' i' Hi'), Hr.
Qed.

Lemma log_abs_det_jacobian_row_local d f z z' i i' :
  flow_wf d f → size1 z = d → size1 z' = d →
  (i < size0 z)%nat → (i' < size0 z')%nat → row z i = row z' i' →
  ∃ l l', log_abs_det_jacobian f z = Some l
          ∧ log_abs_det_jacobian f z' = Some l'
          ∧ elem l i 0 = elem l' i' 0.
Proof.
  intros Hwf Hd Hd' Hi Hi' Hr. destruct f as [f|f]; simpl in *.
  - destruct (PlanarFlow_ladj_elem d f z Hwf Hd) as (l & Hl & _ & El).
    destruct (PlanarFlow_ladj_elem d f z' Hwf Hd') as (l' & Hl' & _ & El').
    exists l, l'. repeat (split; [done|]).
    by rewrite (El i Hi), (El' i' Hi'), Hr.
  - destruct (RadialFlow_ladj_elem d f z Hwf Hd) as (l & Hl & _ & El).
    destruct (RadialFlow_ladj_elem d f z' Hwf Hd') as (l' & Hl' & _ & El').
    exists l, l'. repeat (split; [done|]).
    by rewrite (El i Hi), (El' i' Hi'), Hr.
Qed.

Lemma run_row_local d flows z z' i i' :
  Forall (flow_wf d) flows → size1 z = d → size1 z' = d →
  (i < size0 z)%nat → (i' < size0 z')%nat → row z i = row z' i' →
  ∃ zk ls zk' ls',
    Spec.run flows z = Some (zk, ls) ∧ Spec.run flows z' = Some (zk', ls')
    ∧ row zk i = row zk' i'
    ∧ Forall2 (λ l l', elem l i 0 = elem l' i' 0) ls ls'.
Proof.
  intros Hwf. revert z z'.
  induction Hwf as [|f flows Hf _ IH]; intros z z' Hd Hd' Hi Hi' Hr.
  - exists z, [], z', []. simpl. auto.
  - destruct (log_abs_det_jacobian_row_local d f z z' i i' Hf Hd Hd' Hi Hi' Hr)
      as (l & l' & Hl & Hl' & El).
    destruct (call_row_local d f z z' i i' Hf Hd Hd' Hi Hi' Hr)
      as (y & y' & Hy & Hy' & Hs & Hs' & Ey).
    apply shape_inv in Hs as [Hs0 Hs1]. apply shape_inv in Hs' as [Hs0' Hs1'].
    destruct (IH y y') as (zk & ls & zk' & ls' & Hrun & Hrun' & Ek & Els);
      [congruence..|].
    exists zk, (l :: ls), zk', (l' :: ls'). simpl.
    rewrite Hl, Hl', Hy, Hy'. simpl. rewrite Hrun, Hrun'. simpl.
    split; [done|]. split; [done|]. split; [done|]. by constructor.
Qed.

(** X5: [forward] treats the samples of a batch one by one: a sample gives the
    same output and the same recorded values in whatever batch, and at
    whatever row, it is presented. *)
Theorem NormalizingFlow_forward_samplewise {Distribution : Type}
    (self : NormalizingFlow.t Distribution) (d : nat) (z z' : Tensor)
    (i i' : nat) (w w' : World) :
  Forall (flow_wf d) (NormalizingFlow.bijectors self) →
  size1 z = d → size1 z' = d →
  (i < size0 z)%nat → (i' < size0 z')%nat → row z i = row z' i' →
  ∃ zk l s w1 ls zk' l' s' w1' ls',
    NormalizingFlow.forward self z w = Some ((zk, l), s, w1)
    ∧ heap w1 !! l = Some ls
    ∧ NormalizingFlow.forward self z' w' = Some ((zk', l'), s', w1')
    ∧ heap w1' !! l' = Some ls'
    ∧ row zk i = row zk' i'
    ∧ Forall2 (λ a b, elem a i 0 = elem b i' 0) ls ls'.
Proof.
  intros Hwf Hd Hd' Hi Hi' Hr.
  destruct (run_row_local d _ z z' i i' Hwf Hd Hd' Hi Hi' Hr)
    as (zk & ls & zk' & ls' & Hrun & Hrun' & Ek & Els).
  rewrite !forward_run, Hrun, Hrun'. cbv zeta.
  eexists zk, _, _, _, ls, zk', _, _, _, ls'.
  split; [reflexivity|]. split; [apply lookup_insert_eq|].
  split; [reflexivity|]. split; [apply lookup_insert_eq|]. done.
Qed.

Lemma NormalizingFlow_forward_samplewise_witness :
  row Example.origin 0 = row Fixture.pair 1
  ∧ ∃ zk l s w1 ls zk' l' s' w1' ls',
      NormalizingFlow.forward Example.sequence Example.origin Example.world'
      = Some ((zk, l), s, w1)
      ∧ heap w1 !! l = Some ls
      ∧ NormalizingFlow.forward Example.sequence Fixture.pair Example.world
        = Some ((zk', l'), s', w1')
      ∧ heap w1' !! l' = Some ls'
      ∧ row zk 0 = row zk' 1
      ∧ Forall2 (λ a b, elem a 0 0 = elem b 1 0) ls ls'.
Proof.
  split; [reflexivity|].
  apply (NormalizingFlow_forward_samplewise Example.sequence 2 Example.origin
           Fixture.pair 0 1 Example.world' Example.world Example_flows_wf).
  - reflexivity.
  - reflexivity.
  - simpl. lia.
  - simpl. lia.
  - reflexivity.
Defined.

(** ** Batches of the wrong width *)

(** X6: a planar flow raises exactly on the batches whose width is not its
    dimension. *)
Theorem PlanarFlow_width_error (d : nat) (self : PlanarFlow.t) (z : Tensor) :
  PlanarFlow_wf d self →
  (PlanarFlow._call self z = None ↔ size1 z ≠ d)
  ∧ (PlanarFlow.log_abs_det_jacobian self z = None ↔ size1 z ≠ d).
Proof.
  intros Hwf.
  assert (Hmm : size1 z ≠ d →
    Torch.linear z (PlanarFlow.weight self) (PlanarFlow.bias self) = None).
  { intros Hne. destruct Hwf as ([_ HW]%shape_inv & _).
    unfold Torch.linear, Torch.mm. simpl. rewrite decide_False; [done|].
    congruence. }
  split; split.
  - intros H Hd.
    destruct (PlanarFlow_call_elem d self z Hwf Hd) as (y & Hy & _).
    congruence.
  - intros Hne. unfold PlanarFlow._call. by rewrite (Hmm Hne).
  - intros H Hd.
    destruct (PlanarFlow_ladj_elem d self z Hwf Hd) as (y & Hy & _).
    congruence.
  - intros Hne. unfold PlanarFlow.log_abs_det_jacobian. by rewrite (Hmm Hne).
Qed.

Lemma PlanarFlow_width_error_witness :
  (PlanarFlow._call Example.planar Example.zero = None
   ↔ size1 Example.zero ≠ 2%nat)
  ∧ (PlanarFlow.log_abs_det_jacobian Example.planar Example.zero = None
     ↔ size1 Example.zero ≠ 2%nat).
Proof.
  apply (PlanarFlow_width_error 2 Example.planar Example.zero).
  repeat split.
Defined.

Lemma broadcast_dim_idem a d c :
  Torch.broadcast_dim a d = Some c → Torch.broadcast_dim a c = Some c.
Proof.
  unfold Torch.broadcast_dim. repeat case_decide; intros [= <-]; try done;
    repeat case_decide; congruence.
Qed.

Lemma broadcast_dim_None a d :
  Torch.broadcast_dim a d = None ↔ a ≠ d ∧ a ≠ 1%nat ∧ d ≠ 1%nat.
Proof.
  unfold Torch.broadcast_dim. repeat case_decide; split; try done;
    intros (? & ? & ?); done.
Qed.

Lemma RadialFlow_call_shape (d c : nat) (self : RadialFlow.t) (z : Tensor) :
  RadialFlow_wf d self → Torch.broadcast_dim (size1 z) d = Some c →
  ∃ y, RadialFlow._call self z = Some y ∧ shape y = (size0 z, c).
Proof.
  destruct self as [z0 alpha beta dim]. unfold RadialFlow_wf. simpl.
  intros (Hz0 & Ha & Hb & _) Hc.
  assert (Hz : shape z = (size0 z, size1 z)) by done.
  unfold RadialFlow._call. simpl.
  destruct (sub_shape z z0 (size0 z) (size1 z) 1 d (size0 z) c)
    as (dd & -> & Hdd & _); auto with torch.
  simpl. set (r := Torch.unsqueeze1 (Torch.norm_dim1 dd)).
  assert (Hr : shape r = (size0 z, 1%nat)).
  { apply shape_inv in Hdd as [H0 H1]. unfold shape. simpl. by rewrite H0. }
  edestruct (add_shape alpha r) as (ar & -> & Hsar & _);
    [exact Ha | exact Hr | auto with torch ..|].
  simpl.
  edestruct (mul_shape beta (Torch.scalar_div 1 ar))
    as (bh & -> & Hsbh & _); [exact Hb | exact Hsar | auto with torch ..|].
  simpl.
  edestruct (mul_shape bh dd) as (m & -> & Hsm & _);
    [exact Hsbh | exact Hdd | auto with torch ..|].
  simpl.
  edestruct (add_shape z m) as (y & -> & Hsy & _);
    [exact Hz | exact Hsm | auto with torch | by eapply broadcast_dim_idem |].
  eauto.
Qed.

(** X7: a radial flow raises only when the width of the batch differs from its
    dimension and neither of them is 1; a batch of width 1 is silently
    broadcast to the dimension of the flow, and a flow of dimension 1 accepts
    batches of every width. *)
Theorem RadialFlow_call_broadcast (d : nat) (self : RadialFlow.t)
    (z : Tensor) :
  RadialFlow_wf d self →
  (RadialFlow._call self z = None
   ↔ size1 z ≠ d ∧ size1 z ≠ 1%nat ∧ d ≠ 1%nat)
  ∧ (size1 z = 1%nat →
     ∃ y, RadialFlow._call self z = Some y ∧ shape y = (size0 z, d))
  ∧ (d = 1%nat →
     ∃ y, RadialFlow._call self z = Some y ∧ shape y = shape z).
Proof.
  intros Hwf. split; [|split].
  - rewrite <- broadcast_dim_None. split.
    + intros H. destruct (Torch.broadcast_dim (size1 z) d) as [c|] eqn:E;
        [|done].
      destruct (RadialFlow_call_shape d c self z Hwf E) as (y & Hy & _).
      congruence.
    + intros H. destruct Hwf as ([H0 H1]%shape_inv & _).
      unfold RadialFlow._call, Torch.sub, Torch.elementwise2.
      rewrite H0, H1, broadcast_dim_1_r. simpl. by rewrite H.
  - intros H1. apply (RadialFlow_call_shape d d self z Hwf).
    rewrite H1. apply broadcast_dim_1_l.
  - intros ->. apply (RadialFlow_call_shape 1 (size1 z) self z Hwf).
    apply broadcast_dim_1_r.
Qed.

Lemma RadialFlow_call_broadcast_witness :
  (RadialFlow._call Example.radial Example.zero = None
   ↔ size1 Example.zero ≠ 2%nat ∧ size1 Example.zero ≠ 1%nat ∧ 2%nat ≠ 1%nat)
  ∧ (size1 Example.zero = 1%nat →
     ∃ y, RadialFlow._call Example.radial Example.zero = Some y
          ∧ shape y = (size0 Example.zero, 2%nat))
  ∧ (2%nat = 1%nat →
     ∃ y, RadialFlow._call Example.radial Example.zero = Some y
          ∧ shape y = shape Example.zero).
Proof.
  apply (RadialFlow_call_broadcast 2 Example.radial Example.zero).
  repeat split.
Defined.

Lemma cosh_pos x : 0 < cosh x.
Proof.
  unfold cosh. pose proof (exp_pos x). pose proof (exp_pos (- x)). lra.
Qed.

Lemma derivable_pt_lim_tanh x : derivable_pt_lim tanh x (1 - tanh x ^ 2).
Proof.
  pose proof (cosh_pos x) as Hc.
  replace (1 - tanh x ^ 2)
    with ((cosh x * cosh x - sinh x * sinh x) / Rsqr (cosh x))
    by (unfold tanh, Rsqr; field; lra).
  change tanh with (sinh / cosh)%F.
  apply derivable_pt_lim_div;
    [apply derivable_pt_lim_sinh|apply derivable_pt_lim_cosh|lra].
Qed.

Lemma planar_map_derivative w u b t :
  derivable_pt_lim (λ t, t + u * tanh (w * t + b)) t
    (1 + u * ((1 - tanh (w * t + b) ^ 2) * w)).
Proof.
  change (λ t, t + u * tanh (w * t + b))
    with (id + mult_real_fct u (comp tanh (mult_real_fct w id + fct_cte b)))%F.
  apply derivable_pt_lim_plus; [apply derivable_pt_lim_id|].
  apply derivable_pt_lim_scal.
  apply derivable_pt_lim_comp.
  - replace w with (w * 1 + 0) at 2 by ring.
    apply derivable_pt_lim_plus;
      [apply derivable_pt_lim_scal, derivable_pt_lim_id
      |apply derivable_pt_lim_const].
  - apply derivable_pt_lim_tanh.
Qed.

Lemma row_width_1 t i : size1 t = 1%nat → row t i = [elem t i 0%nat].
Proof. intros H. unfold row. by rewrite H. Qed.

(** X8: for one dimension a planar flow is the map
    [f t = t + u * tanh(w * t + b)] on every sample, and what [log_abs_det_jacobian] returns for a sample is
    [log(|f'(t)| + 1e-9)] for the derivative of that map at the sample. *)
Theorem PlanarFlow_derivative (self : PlanarFlow.t) (z : Tensor) :
  PlanarFlow_wf 1 self → size1 z = 1%nat →
  let w := elem (PlanarFlow.weight self) 0 0 in
  let u := elem (PlanarFlow.scale self) 0 0 in
  let b := elem (PlanarFlow.bias self) 0 0 in
  let f := λ t, t + u * tanh (w * t + b) in
  ∃ y l,
    PlanarFlow._call self z = Some y
    ∧ PlanarFlow.log_abs_det_jacobian self z = Some l
    ∧ ∀ i, (i < size0 z)%nat →
        elem y i 0 = f (elem z i 0)
        ∧ ∃ d, derivable_pt_lim f (elem z i 0) d
               ∧ elem l i 0 = ln (Rabs d + 1e-9).
Proof.
  intros Hwf Hz w u b f.
  destruct (PlanarFlow_call_elem 1 self z Hwf Hz) as (y & Hy & _ & Ey).
  destruct (PlanarFlow_ladj_elem 1 self z Hwf Hz) as (l & Hl & _ & El).
  destruct Hwf as (HW & Hu & _).
  apply shape_inv in HW as [_ HW]. apply shape_inv in Hu as [_ Hu].
  exists y, l. split; [done|]. split; [done|]. intros i Hi.
  assert (Ed : vdot (row (PlanarFlow.weight self) 0) (row z i)
               + elem (PlanarFlow.bias self) 0 0
               = w * elem z i 0 + b).
  { rewrite !row_width_1 by done. unfold vdot, vsum. simpl. fold w b. ring. }
  split.
  - rewrite Ey by lia. rewrite Ed. done.
  - eexists. split; [apply planar_map_derivative|].
    rewrite El by done. unfold Spec.planar_log_det, Spec.planar_psi.
    cbv zeta. rewrite Ed. rewrite !row_width_1 by done.
    unfold vdot, vsum. simpl. fold w u. do 3 f_equal. ring.
Qed.

Lemma PlanarFlow_derivative_witness :
  let w := elem (PlanarFlow.weight Fixture.planar_line) 0 0 in
  let u := elem (PlanarFlow.scale Fixture.planar_line) 0 0 in
  let b := elem (PlanarFlow.bias Fixture.planar_line) 0 0 in
  let f := λ t, t + u * tanh (w * t + b) in
  ∃ y l,
    PlanarFlow._call Fixture.planar_line Example.zero = Some y
    ∧ PlanarFlow.log_abs_det_jacobian Fixture.planar_line Example.zero
      = Some l
    ∧ ∀ i, (i < size0 Example.zero)%nat →
        elem y i 0 = f (elem Example.zero i 0)
        ∧ ∃ d, derivable_pt_lim f (elem Example.zero i 0) d
               ∧ elem l i 0 = ln (Rabs d + 1e-9).
Proof.
  apply (PlanarFlow_derivative Fixture.planar_line Example.zero).
  - repeat split.
  - reflexivity.
Defined.

(** ** Calls of [forward] *)

Lemma forward_inv {Distribution : Type} (self s : NormalizingFlow.t Distribution)
    z zk l w w1 :
  NormalizingFlow.forward self z w = Some ((zk, l), s, w1) →
  ∃ ls, Spec.run (NormalizingFlow.bijectors self) z = Some (zk, ls)
        ∧ l = fresh (dom (heap w))
        ∧ s = NormalizingFlow.set_log_det self l
        ∧ w1 = set_heap w (<[l := ls]> (heap w)).
Proof.
  rewrite forward_run.
  destruct (Spec.run _ z) as [[zk' ls]|]; [|done].
  cbv zeta. intros [= <- <- <- <-]. eauto.
Qed.

Lemma forward_Some {Distribution : Type}
    (self : NormalizingFlow.t Distribution) d z w :
  Forall (flow_wf d) (NormalizingFlow.bijectors self) → size1 z = d →
  ∃ zk l s w1 ls,
    NormalizingFlow.forward self z w = Some ((zk, l), s, w1)
    ∧ heap w1 !! l = Some ls
    ∧ size1 zk = d
    ∧ NormalizingFlow.bijectors s = NormalizingFlow.bijectors self.
Proof.
  intros Hwf Hd.
  destruct (run_wf d _ z Hwf Hd) as (zk & ls & Hrun & Hs & _).
  rewrite forward_run, Hrun. cbv zeta. eexists zk, _, _, _, ls.
  split; [reflexivity|]. split; [apply lookup_insert_eq|].
  split; [|done]. apply shape_inv in Hs as [_ Hs]. congruence.
Qed.

Lemma run_app flows flows' z :
  Spec.run (flows ++ flows') z
  = '(z1, ls) ← Spec.run flows z;
    '(zk, ls') ← Spec.run flows' z1;
    Some (zk, ls ++ ls').
Proof.
  revert z. induction flows as [|f flows IH]; intros z; simpl.
  - by destruct (Spec.run flows' z) as [[??]|].
  - destruct (log_abs_det_jacobian f z) as [l|]; [simpl|done].
    destruct (call f z) as [z'|]; [simpl|done]. rewrite IH.
    destruct (Spec.run flows z') as [[z1 ls]|]; [simpl|done].
    by destruct (Spec.run flows' z1) as [[??]|].
Qed.

(** X9: a sequence whose flows are those of a first sequence followed by those
    of a second gives, in one call, the output of the second on the output of
    the first, and records the values of the first followed by those of the
    second. *)
Theorem NormalizingFlow_forward_app {Distribution : Type}
    (self self1 self2 s1 s2 : NormalizingFlow.t Distribution)
    (z z1 zk : Tensor) (l1 l2 : nat) (ls1 ls2 : list Tensor)
    (w w1 w2 w0 : World) :
  NormalizingFlow.bijectors self
  = NormalizingFlow.bijectors self1 ++ NormalizingFlow.bijectors self2 →
  NormalizingFlow.forward self1 z w = Some ((z1, l1), s1, w1) →
  heap w1 !! l1 = Some ls1 →
  NormalizingFlow.forward self2 z1 w1 = Some ((zk, l2), s2, w2) →
  heap w2 !! l2 = Some ls2 →
  ∃ l s w', NormalizingFlow.forward self z w0 = Some ((zk, l), s, w')
            ∧ heap w' !! l = Some (ls1 ++ ls2).
Proof.
  intros Hb H1 Hl1 H2 Hl2.
  apply forward_inv in H1 as (ls1' & Hr1 & -> & -> & ->).
  apply forward_inv in H2 as (ls2' & Hr2 & -> & -> & ->).
  simpl in Hl1, Hl2. rewrite lookup_insert_eq in Hl1, Hl2. simplify_eq.
  rewrite forward_run, Hb, run_app, Hr1. simpl. rewrite Hr2. simpl.
  eexists _, _, _. split; [reflexivity|]. simpl. apply lookup_insert_eq.
Qed.

Lemma NormalizingFlow_forward_app_witness :
  ∃ z1 l1 s1 w1 ls1 zk l2 s2 w2 ls2,
    NormalizingFlow.forward Fixture.first_half Example.origin Example.world'
    = Some ((z1, l1), s1, w1)
    ∧ heap w1 !! l1 = Some ls1
    ∧ NormalizingFlow.forward Fixture.second_half z1 w1
      = Some ((zk, l2), s2, w2)
    ∧ heap w2 !! l2 = Some ls2
    ∧ ∃ l s w',
        NormalizingFlow.forward Example.sequence Example.origin Example.world
        = Some ((zk, l), s, w')
        ∧ heap w' !! l = Some (ls1 ++ ls2).
Proof.
  destruct (forward_Some Fixture.first_half 2 Example.origin Example.world')
    as (z1 & l1 & s1 & w1 & ls1 & H1 & Hl1 & Hz1 & _);
    [repeat constructor|reflexivity|].
  destruct (forward_Some Fixture.second_half 2 z1 w1)
    as (zk & l2 & s2 & w2 & ls2 & H2 & Hl2 & _);
    [repeat constructor|exact Hz1|].
  exists z1, l1, s1, w1, ls1, zk, l2, s2, w2, ls2.
  split; [exact H1|]. split; [exact Hl1|].
  split; [exact H2|]. split; [exact Hl2|].
  exact (NormalizingFlow_forward_app Example.sequence Fixture.first_half
           Fixture.second_half s1 s2 Example.origin z1 zk l1 l2 ls1 ls2
           Example.world' w1 w2 Example.world eq_refl H1 Hl1 H2 Hl2).
Defined.

(** X10: the list returned by a call of [forward] is not touched by the next
    call: the second call records into another list, and both lists hold one
    entry per flow. *)
Theorem NormalizingFlow_forward_twice {Distribution : Type}
    (self s1 s2 : NormalizingFlow.t Distribution) (z z' zk zk' : Tensor)
    (l1 l2 : nat) (w w1 w2 : World) :
  NormalizingFlow.forward self z w = Some ((zk, l1), s1, w1) →
  NormalizingFlow.forward s1 z' w1 = Some ((zk', l2), s2, w2) →
  l1 ≠ l2
  ∧ heap w2 !! l1 = heap w1 !! l1
  ∧ NormalizingFlow.log_det s2 = l2
  ∧ NormalizingFlow.bijectors s2 = NormalizingFlow.bijectors self
  ∧ ∃ ls1 ls2, heap w2 !! l1 = Some ls1 ∧ heap w2 !! l2 = Some ls2
               ∧ length ls1 = length (NormalizingFlow.bijectors self)
               ∧ length ls2 = length (NormalizingFlow.bijectors self).
Proof.
  intros H1 H2.
  apply forward_inv in H1 as (ls1 & Hr1 & El1 & -> & ->).
  apply forward_inv in H2 as (ls2 & Hr2 & El2 & -> & ->).
  simpl in *.
  assert (Hne : l1 ≠ l2).
  { intros E. pose proof (is_fresh (dom (<[l1:=ls1]> (heap w)))) as Hf.
    rewrite <- El2, <- E in Hf. apply Hf. set_solver. }
  split; [exact Hne|].
  rewrite lookup_insert_ne by done. split; [done|]. split; [done|].
  split; [done|]. exists ls1, ls2.
  rewrite lookup_insert_eq. rewrite !lookup_insert_eq.
  split; [done|]. split; [done|].
  split; [by eapply run_length|by eapply run_length].
Qed.

Lemma NormalizingFlow_forward_twice_witness :
  ∃ zk l1 s1 w1 zk' l2 s2 w2,
    NormalizingFlow.forward Example.sequence Example.origin Example.world'
    = Some ((zk, l1), s1, w1)
    ∧ NormalizingFlow.forward s1 Fixture.pair w1 = Some ((zk', l2), s2, w2)
    ∧ l1 ≠ l2
    ∧ heap w2 !! l1 = heap w1 !! l1
    ∧ NormalizingFlow.log_det s2 = l2
    ∧ NormalizingFlow.bijectors s2
      = NormalizingFlow.bijectors Example.sequence
    ∧ ∃ ls1 ls2,
        heap w2 !! l1 = Some ls1 ∧ heap w2 !! l2 = Some ls2
        ∧ length ls1 = length (NormalizingFlow.bijectors Example.sequence)
        ∧ length ls2 = length (NormalizingFlow.bijectors Example.sequence).
Proof.
  destruct (forward_Some Example.sequence 2 Example.origin Example.world')
    as (zk & l1 & s1 & w1 & ls1 & H1 & _ & _ & Hb);
    [exact Example_flows_wf|reflexivity|].
  destruct (forward_Some s1 2 Fixture.pair w1)
    as (zk' & l2 & s2 & w2 & ls2 & H2 & _);
    [rewrite Hb; exact Example_flows_wf|reflexivity|].
  exists zk, l1, s1, w1, zk', l2, s2, w2.
  split; [exact H1|]. split; [exact H2|].
  exact (NormalizingFlow_forward_twice Example.sequence s1 s2 Example.origin
           Fixture.pair zk zk' l1 l2 Example.world' w1 w2 H1 H2).
Defined.

(** X11: what [forward] returns depends on the flows and on the batch only:
    in another store, and with another state of the generator, it returns the
    same batch and records the same values. *)
Theorem NormalizingFlow_forward_world {Distribution : Type}
    (self s : NormalizingFlow.t Distribution) (z zk : Tensor) (l : nat)
    (ls : list Tensor) (w w1 w' : World) :
  NormalizingFlow.forward self z w = Some ((zk, l), s, w1) →
  heap w1 !! l = Some ls →
  ∃ l' s' w1', NormalizingFlow.forward self z w' = Some ((zk, l'), s', w1')
               ∧ heap w1' !! l' = Some ls.
Proof.
  intros H Hl. apply forward_inv in H as (ls' & Hr & -> & -> & ->).
  simpl in Hl. rewrite lookup_insert_eq in Hl. simplify_eq.
  rewrite forward_run, Hr. cbv zeta. eexists _, _, _.
  split; [reflexivity|]. simpl. apply lookup_insert_eq.
Qed.

Lemma NormalizingFlow_forward_world_witness :
  ∃ zk l s w1 ls,
    NormalizingFlow.forward Example.sequence Fixture.pair Example.world'
    = Some ((zk, l), s, w1)
    ∧ heap w1 !! l = Some ls
    ∧ ∃ l' s' w1',
        NormalizingFlow.forward Example.sequence Fixture.pair Example.world
        = Some ((zk, l'), s', w1')
        ∧ heap w1' !! l' = Some ls.
Proof.
  destruct (forward_Some Example.sequence 2 Fixture.pair Example.world')
    as (zk & l & s & w1 & ls & H & Hl & _);
    [exact Example_flows_wf|reflexivity|].
  exists zk, l, s, w1, ls. split; [exact H|]. split; [exact Hl|].
  exact (NormalizingFlow_forward_world Example.sequence s Fixture.pair zk l ls
           Example.world' w1 Example.world H Hl).
Defined.

(** ** Construction of a sequence *)










(** ** The regularisation term of the plain auto-encoder *)

Lemma vsum_nonpos (v : list R) :
  Forall (λ x, x <= 0) v → vsum v <= 0 ∧ (vsum v = 0 → Forall (λ x, x = 0) v).
Proof.
  unfold vsum. induction 1 as [|x v Hx Hv [IH1 IH2]]; simpl.
  - split; [lra|done].
  - split; [lra|]. intros H. assert (x = 0) by lra.
    constructor; [done|]. apply IH2. lra.
Qed.

Lemma vsum_zeros {A} (l : list A) : vsum ((λ _, 0) <$> l) = 0.
Proof.
  unfold vsum. induction l as [|a l IH]; [done|].
  rewrite fmap_cons. simpl. rewrite IH. ring.
Qed.

Lemma sum_over_nonpos rows cols f :
  (∀ i j, (i < rows)%nat → (j < cols)%nat → f i j <= 0) →
  Spec.sum_over rows cols f <= 0
  ∧ (Spec.sum_over rows cols f = 0 →
     ∀ i j, (i < rows)%nat → (j < cols)%nat → f i j = 0).
Proof.
  intros H. unfold Spec.sum_over.
  assert (Hrow : ∀ i, (i < rows)%nat →
            Forall (λ x, x <= 0) (f i <$> seq 0 cols)).
  { intros i Hi. apply Forall_fmap, Forall_forall. intros j Hj.
    apply elem_of_seq in Hj. apply H; lia. }
  destruct (vsum_nonpos ((λ i, vsum (f i <$> seq 0 cols)) <$> seq 0 rows))
    as [H1 H2].
  { apply Forall_fmap, Forall_forall. intros i Hi. apply elem_of_seq in Hi.
    simpl. apply vsum_nonpos, Hrow. lia. }
  split; [exact H1|]. intros H0 i j Hi Hj. specialize (H2 H0).
  rewrite Forall_fmap, Forall_forall in H2.
  assert (Hv : vsum (f i <$> seq 0 cols) = 0).
  { apply (H2 i). apply elem_of_seq. lia. }
  destruct (vsum_nonpos (f i <$> seq 0 cols) (Hrow i Hi)) as [_ H3].
  specialize (H3 Hv). rewrite Forall_fmap, Forall_forall in H3.
  apply (H3 j). apply elem_of_seq. lia.
Qed.

Lemma kl_term mu sigma :
  1 + sigma - mu ^ 2 - exp sigma <= 0
  ∧ (1 + sigma - mu ^ 2 - exp sigma = 0 ↔ mu = 0 ∧ sigma = 0).
Proof.
  assert (H := exp_ineq1_le sigma). assert (Hm := pow2_ge_0 mu).
  split; [lra|]. split.
  - intros E. assert (Hm0 : mu ^ 2 = 0) by lra.
    assert (He : exp sigma = 1 + sigma) by lra.
    split.
    + simpl in Hm0. rewrite Rmult_1_r in Hm0.
      by apply Rmult_integral in Hm0 as [|].
    + destruct (Req_dec sigma 0) as [|Hne]; [done|].
      pose proof (exp_ineq1 sigma Hne). lra.
  - intros [-> ->]. rewrite exp_0. lra.
Qed.

(** X14: for a batch that is not empty, the term that the plain [latent]
    returns is never negative, and it is 0 exactly when [mu] and [sigma] are
    0 everywhere. *)
Theorem VAE_latent_kl_nonneg (x mu sigma : Tensor) (w : World)
    (batch_size dim : nat) :
  shape mu = (batch_size, dim) → shape sigma = (batch_size, dim) →
  size0 x = batch_size → (0 < batch_size)%nat →
  ∃ z kl w',
    VAE.latent x (mu, sigma) w = Some ((z, kl), w')
    ∧ 0 <= kl
    ∧ (kl = 0 ↔ ∀ i j, (i < batch_size)%nat → (j < dim)%nat →
                  elem mu i j = 0 ∧ elem sigma i j = 0).
Proof.
  intros Hmu Hsigma Hx HB.
  destruct (VAE_latent_elem x mu sigma w batch_size dim Hmu Hsigma Hx)
    as (z & w' & H & _).
  eexists z, _, w'. split; [exact H|]. unfold Spec.kl.
  set (f := λ i j, 1 + elem sigma i j - elem mu i j ^ 2 - exp (elem sigma i j)).
  destruct (sum_over_nonpos batch_size dim f) as [H1 H2].
  { intros i j _ _. apply kl_term. }
  assert (HB' : 0 < INR batch_size) by (apply lt_0_INR; lia).
  assert (Hi : 0 < / INR batch_size) by (by apply Rinv_0_lt_compat).
  unfold Rdiv. split; [nra|]. split.
  - intros E i j Hi' Hj. apply kl_term. apply H2; [|done..].
    apply Rmult_integral in E as [E|E]; [lra|lra].
  - intros E. replace (Spec.sum_over batch_size dim f) with 0; [ring|].
    symmetry. unfold Spec.sum_over.
    rewrite (fmap_seq_ext _ (λ _, 0) batch_size); [apply vsum_zeros|].
    intros i Hi'. rewrite (fmap_seq_ext _ (λ _, 0) dim); [apply vsum_zeros|].
    intros j Hj. unfold f. apply kl_term. by apply E.
Qed.

Lemma VAE_latent_kl_nonneg_witness :
  ∃ z kl w',
    VAE.latent Example.origin (Example.mu, Example.sigma) Example.world
    = Some ((z, kl), w')
    ∧ 0 <= kl
    ∧ (kl = 0 ↔ ∀ i j, (i < 1)%nat → (j < 2)%nat →
                  elem Example.mu i j = 0 ∧ elem Example.sigma i j = 0).
Proof.
  apply (VAE_latent_kl_nonneg Example.origin Example.mu Example.sigma
           Example.world 1 2).
  - reflexivity.
  - reflexivity.
  - reflexivity.
  - lia.
Defined.

(** X15: whether the plain [latent] returns, and the term it returns, depend on
    [x], [mu] and [sigma] only: not on the state of the generator, not on the
    store. *)
Theorem VAE_latent_kl_draw (x : Tensor) (z_params : Tensor * Tensor)
    (w w' : World) :
  (λ r, snd (fst r)) <$> VAE.latent x z_params w
  = (λ r, snd (fst r)) <$> VAE.latent x z_params w'.
Proof.
  destruct z_params as [mu sigma]. unfold VAE.latent.
  rewrite !bind_lift.
  destruct (Distrib.Normal_ _ _) as [q|]; [|done].
  rewrite !bind_sample, !bind_lift.
  unfold Torch.mul, Torch.elementwise2. simpl.
  destruct (Torch.broadcast_dim (size0 sigma) (size0 x)) as [r|]; [simpl|done].
  destruct (Torch.broadcast_dim (size1 sigma) _) as [c|]; [simpl|done].
  rewrite !bind_lift. unfold Torch.add, Torch.elementwise2. simpl.
  destruct (Torch.broadcast_dim r (size0 mu)) as [r'|]; [simpl|done].
  destruct (Torch.broadcast_dim c (size1 mu)) as [c'|]; [simpl|done].
  rewrite !bind_lift.
  destruct (Torch.sub (Torch.scalar_add 1 sigma) _) as [a|]; [|done].
  rewrite !bind_lift.
  destruct (Torch.sub a _) as [b|]; [|done].
  reflexivity.
Qed.

(** ** The scale of the latent distribution *)

Lemma Linear_forward_shape m x B E L :
  shape x = (B, E) → shape (NN.weight m) = (L, E) →
  shape (NN.bias m) = (1%nat, L) →
  ∃ y, NN.Linear_forward m x = Some y ∧ shape y = (B, L).
Proof.
  intros Hx HW Hb. unfold NN.Linear_forward, Torch.linear.
  destruct (mm_shape x (Torch.t_ (NN.weight m)) B E L) as (y & -> & Hy & _);
    [done| |].
  { apply shape_inv in HW as [H0 H1]. unfold shape. simpl. congruence. }
  simpl.
  destruct (add_shape y (NN.bias m) B L 1 L B L) as (t & -> & Ht & _);
    auto with torch.
  eauto.
Qed.

Lemma Hardtanh_range lo hi x : lo <= hi → lo <= Rmin (Rmax x lo) hi <= hi.
Proof.
  intros H. unfold Rmin, Rmax.
  destruct (Rle_dec x lo); destruct (Rle_dec _ hi); lra.
Qed.

(** X16: whatever the linear layer and its input are, every element of the
    scale that [self.sigma] returns lies between 1e-4 and 5. *)
Theorem VAE_sigma_range (linear : NN.Linear) (x : Tensor)
    (batch_size encoder_dims latent_dims : nat) :
  shape x = (batch_size, encoder_dims) →
  shape (NN.weight linear) = (latent_dims, encoder_dims) →
  shape (NN.bias linear) = (1%nat, latent_dims) →
  ∃ s, VAE.sigma linear x = Some s
       ∧ shape s = (batch_size, latent_dims)
       ∧ ∀ i j, (i < batch_size)%nat → (j < latent_dims)%nat →
           1e-4 <= elem s i j <= 5.
Proof.
  intros Hx HW Hb.
  destruct (Linear_forward_shape linear x _ _ _ Hx HW Hb) as (h & Hh & Hs).
  unfold VAE.sigma. rewrite Hh. simpl. eexists. split; [reflexivity|].
  split; [exact Hs|]. intros i j _ _. simpl. apply Hardtanh_range. lra.
Qed.

Lemma VAE_sigma_range_witness :
  ∃ s, VAE.sigma Fixture.linear Fixture.pair = Some s
       ∧ shape s = (2%nat, 1%nat)
       ∧ ∀ i j, (i < 2)%nat → (j < 1)%nat → 1e-4 <= elem s i j <= 5.
Proof.
  apply (VAE_sigma_range Fixture.linear Fixture.pair 2 2 1).
  - reflexivity.
  - reflexivity.
  - reflexivity.
Defined.

(** ** The latent step with flows *)

Lemma VAENormalizingFlow_latent_Some {Distribution : Type}
    (self : VAENormalizingFlow.t Distribution) (x mu sigma : Tensor)
    (w : World) (B L : nat) :
  NormalizingFlow.bijectors (VAENormalizingFlow.flow self) ≠ [] →
  Forall (flow_wf L)
    (NormalizingFlow.bijectors (VAENormalizingFlow.flow self)) →
  shape mu = (B, L) → shape sigma = (B, L) → size0 x = B →
  ∃ zk loss self' w',
    VAENormalizingFlow.latent self x (mu, sigma) w
    = Some ((zk, loss), self', w').
Proof.
  intros Hne Hwf Hmu Hsigma Hx.
  destruct (reparameterize mu sigma w B L Hmu Hsigma)
    as (q & eps & se & z0 & Hq & Hbs & Heps & Hse & Hz & Hsz & Ez).
  pose proof (shape_inv _ _ _ Hsz) as [Hz0 Hz1].
  destruct (run_wf L _ z0 Hwf Hz1) as (zk & ls & Hrun & Hszk & Hls).
  rewrite Hsz, Hz0 in *.
  unfold VAENormalizingFlow.latent.
  rewrite bind_lift, Hq, bind_sample, Hbs, Hx, <- Heps.
  rewrite bind_lift, Hse, bind_lift, Hz, bind_unfold, forward_run, Hrun.
  cbv zeta beta iota.
  set (l := fresh (dom (heap _))). set (w1 := set_heap _ _).
  destruct (mul_shape (Torch.scalar_mul (-0.5) zk) zk B L B L B L)
    as (lp & Hlp & Hslp & _); [exact Hszk | exact Hszk | auto with torch ..|].
  rewrite bind_lift, Hlp.
  destruct (sub_shape z0 mu B L B L B L)
    as (d & Hd & Hsd & _); [exact Hsz | exact Hmu | auto with torch ..|].
  rewrite bind_lift, Hd, bind_lift.
  destruct (mul_shape d d B L B L B L)
    as (d2 & Hd2 & Hsd2 & _); [exact Hsd | exact Hsd | auto with torch ..|].
  rewrite bind_lift, Hd2.
  destruct (mul_shape d2 (Torch.reciprocal sigma) B L B L B L)
    as (q2 & Hq2 & Hsq2 & _);
    [exact Hsd2 | exact Hsigma | auto with torch ..|].
  rewrite bind_lift, Hq2.
  destruct (add_shape (Torch.log sigma) q2 B L B L B L)
    as (s & Hs & Hss & _); [exact Hsigma | exact Hsq2 | auto with torch ..|].
  rewrite bind_lift, Hs.
  destruct (sub_shape (Torch.scalar_mul (-0.5) s) lp B L B L B L)
    as (diff & Hdiff & _); [exact Hss | exact Hslp | auto with torch ..|].
  rewrite bind_lift, Hdiff.
  rewrite (bind_items l _ w1 ls) by apply lookup_insert_eq.
  destruct (cat_sum ls 1) as (ladj & Hladj & _).
  { intros ->. apply run_length in Hrun.
    by destruct (NormalizingFlow.bijectors _). }
  { eapply Forall_impl; [exact Hls|]. by intros t [_ ?]%shape_inv. }
  rewrite bind_lift, Hladj. unfold ret. cbv zeta. eauto.
Qed.

(** X17: for flows, [mu] and [sigma] of matching shapes, the latent step of
    [VAENormalizingFlow] raises exactly when the sequence has no flows; with
    at least one flow it returns. *)
Theorem VAENormalizingFlow_latent_error {Distribution : Type}
    (self : VAENormalizingFlow.t Distribution) (x mu sigma : Tensor)
    (w : World) (batch_size dim : nat) :
  Forall (flow_wf dim)
    (NormalizingFlow.bijectors (VAENormalizingFlow.flow self)) →
  shape mu = (batch_size, dim) → shape sigma = (batch_size, dim) →
  size0 x = batch_size →
  VAENormalizingFlow.latent self x (mu, sigma) w = None
  ↔ NormalizingFlow.bijectors (VAENormalizingFlow.flow self) = [].
Proof.
  intros Hwf Hmu Hsigma Hx. split.
  - intros H.
    destruct (NormalizingFlow.bijectors (VAENormalizingFlow.flow self))
      as [|f fs] eqn:E; [done|].
    destruct (VAENormalizingFlow_latent_Some self x mu sigma w batch_size dim)
      as (zk & loss & self' & w' & H'); [by rewrite E|by rewrite E|done..|].
    congruence.
  - apply VAENormalizingFlow_latent_empty.
Qed.

Lemma VAENormalizingFlow_latent_error_witness :
  VAENormalizingFlow.latent Example.vae Fixture.pair
    (Fixture.pair, Fixture.pair) Example.world
  = None
  ↔ NormalizingFlow.bijectors (VAENormalizingFlow.flow Example.vae) = [].
Proof.
  apply (VAENormalizingFlow_latent_error Example.vae Fixture.pair
           Fixture.pair Fixture.pair Example.world 2 2).
  - exact Example_flows_wf.
  - reflexivity.
  - reflexivity.
  - reflexivity.
Defined.



(** ** The grid of images *)

Lemma in_tile_iff s q r :
  (q * (s + 1) ≤ r < q * (s + 1) + s ↔ r / (s + 1) = q ∧ r mod (s + 1) < s)%nat.
Proof.
  pose proof (Nat.div_mod_eq r (s + 1)) as E.
  pose proof (Nat.mod_upper_bound r (s + 1) ltac:(lia)) as U.
  split.
  - intros [H1 H2].
    assert (r / (s + 1) = q)%nat by nia. split; [done|]. nia.
  - intros [<- H2]. nia.
Qed.

Lemma tile_index_unique n tr tc k :
  (tc < n → tr * n + tc = k ↔ tr = k / n ∧ tc = k mod n)%nat.
Proof.
  intros Hn.
  pose proof (Nat.div_mod_eq k n) as E.
  pose proof (Nat.mod_upper_bound k n ltac:(lia)) as U.
  split.
  - intros <-. assert ((tr * n + tc) / n = tr)%nat by nia. split; [done|]. nia.
  - intros [-> ->]. nia.
Qed.

Lemma plot_batch_tile_nat batch nslices b img :
  (0 < nslices)%Z →
  plot_batch_tile batch nslices b img
  = Numpy.set_slice img (b / Z.to_nat nslices * (dim2 batch + 1))
      (b / Z.to_nat nslices * (dim2 batch + 1) + dim2 batch)
      (b mod Z.to_nat nslices * (dim3 batch + 1))
      (b mod Z.to_nat nslices * (dim3 batch + 1) + dim3 batch)
      (sum_channels batch b).
Proof.
  intros Hn. unfold plot_batch_tile. rewrite decide_False by lia.
  assert (E1 : Z.to_nat (Z.of_nat b ÷ nslices) = (b / Z.to_nat nslices)%nat).
  { rewrite Z.quot_div_nonneg by lia.
    rewrite <- (Z2Nat.id nslices) at 1 by lia.
    by rewrite <- Nat2Z.inj_div, Nat2Z.id. }
  assert (E2 : Z.to_nat (Z.of_nat b `mod` nslices)
               = (b mod Z.to_nat nslices)%nat).
  { rewrite <- (Z2Nat.id nslices) at 1 by lia.
    by rewrite <- Nat2Z.inj_mod, Nat2Z.id. }
  cbv zeta. rewrite E1, E2. f_equal; lia.
Qed.

Lemma set_slice_inside a r0 c0 v :
  (r0 + size0 v ≤ Numpy.height a)%nat → (c0 + size1 v ≤ Numpy.width a)%nat →
  ∃ a', Numpy.set_slice a r0 (r0 + size0 v) c0 (c0 + size1 v) v = Some a'
        ∧ Numpy.height a' = Numpy.height a
        ∧ Numpy.width a' = Numpy.width a
        ∧ ∀ i j, Numpy.pixel a' i j
                 = if decide (r0 ≤ i < r0 + size0 v ∧ c0 ≤ j < c0 + size1 v)%nat
                   then elem v (i - r0) (j - c0)
                   else Numpy.pixel a i j.
Proof.
  intros Hr Hc. unfold Numpy.set_slice.
  rewrite !Nat.min_l by lia. rewrite decide_True by lia.
  eexists. split; [reflexivity|]. split; [done|]. split; [done|].
  intros i j. simpl. case_decide as Hin; [|done].
  unfold Torch.expand. by rewrite !expand_index_lt by lia.
Qed.

Lemma grid_pixel_step batch n k r c :
  (0 < n)%nat → (k < n * n)%nat →
  grid_pixel batch n (S k) r c
  = if decide (k / n * (dim2 batch + 1) ≤ r
               < k / n * (dim2 batch + 1) + dim2 batch
               ∧ k mod n * (dim3 batch + 1) ≤ c
                 < k mod n * (dim3 batch + 1) + dim3 batch)%nat
    then elem (sum_channels batch k) (r - k / n * (dim2 batch + 1))
           (c - k mod n * (dim3 batch + 1))
    else grid_pixel batch n k r c.
Proof.
  intros Hn Hk. unfold grid_pixel. cbv zeta.
  pose proof (Nat.div_mod_eq k n) as Ek.
  pose proof (Nat.mod_upper_bound k n ltac:(lia)) as Uk.
  pose proof (Nat.div_mod_eq r (dim2 batch + 1)) as Er.
  pose proof (Nat.div_mod_eq c (dim3 batch + 1)) as Ec.
  pose proof (in_tile_iff (dim2 batch) (k / n) r) as Ir.
  pose proof (in_tile_iff (dim3 batch) (k mod n) c) as Ic.
  pose proof (tile_index_unique n (r / (dim2 batch + 1))
                (c / (dim3 batch + 1)) k) as TU.
  set (tr := (r / (dim2 batch + 1))%nat) in *.
  set (tc := (c / (dim3 batch + 1))%nat) in *.
  set (ir := (r mod (dim2 batch + 1))%nat) in *.
  set (ic := (c mod (dim3 batch + 1))%nat) in *.
  destruct (decide (k / n * (dim2 batch + 1) ≤ r
               < k / n * (dim2 batch + 1) + dim2 batch
               ∧ k mod n * (dim3 batch + 1) ≤ c
                 < k mod n * (dim3 batch + 1) + dim3 batch)%nat)
    as [[Hr Hc]|Hout].
  - apply Ir in Hr as [Hr1 Hr2]. apply Ic in Hc as [Hc1 Hc2].
    rewrite decide_True by (rewrite Hr1, Hc1; lia).
    rewrite Hr1, Hc1. f_equal; [f_equal; lia|lia|lia].
  - destruct (decide (tr * n + tc = k ∧ tc < n ∧ ir < dim2 batch
                      ∧ ic < dim3 batch)%nat) as [(E & H1 & H2 & H3)|Hne].
    + exfalso. apply Hout. apply TU in E as [E1 E2]; [|done].
      split; [apply Ir|apply Ic]; done.
    + repeat case_decide; try done; lia.
Qed.

Lemma plot_loop_grid batch nslices m :
  (0 < nslices)%Z →
  ∀ k img,
    (k + m ≤ Z.to_nat nslices * Z.to_nat nslices)%nat →
    Numpy.height img = (Z.to_nat nslices * (dim2 batch + 1))%nat →
    Numpy.width img = (Z.to_nat nslices * (dim3 batch + 1))%nat →
    (∀ r c, Numpy.pixel img r c = grid_pixel batch (Z.to_nat nslices) k r c) →
    ∃ img',
      for_each (seq k m) (plot_batch_tile batch nslices) img = Some img'
      ∧ Numpy.height img' = Numpy.height img
      ∧ Numpy.width img' = Numpy.width img
      ∧ ∀ r c, Numpy.pixel img' r c
               = grid_pixel batch (Z.to_nat nslices) (k + m) r c.
Proof.
  intros Hn. set (n := Z.to_nat nslices). assert (Hn' : (0 < n)%nat) by lia.
  induction m as [|m IH]; intros k img Hk Hh Hw Hp.
  - exists img. rewrite Nat.add_0_r. done.
  - simpl. rewrite plot_batch_tile_nat by done. fold n.
    pose proof (Nat.mod_upper_bound k n ltac:(lia)) as Uk.
    assert (Hq : (k / n < n)%nat) by (apply Nat.Div0.div_lt_upper_bound; lia).
    destruct (set_slice_inside img (k / n * (dim2 batch + 1))
                (k mod n * (dim3 batch + 1)) (sum_channels batch k))
      as (img1 & E1 & Hh1 & Hw1 & Hp1); [simpl; nia..|].
    change (size0 (sum_channels batch k)) with (dim2 batch) in E1, Hp1.
    change (size1 (sum_channels batch k)) with (dim3 batch) in E1, Hp1.
    rewrite E1. simpl. destruct (IH (S k) img1) as (img' & Hl & Hh' & Hw' & Hp').
    + lia.
    + congruence.
    + congruence.
    + intros r c. rewrite Hp1, grid_pixel_step by lia. simpl.
      by rewrite Hp.
    + exists img'. split; [exact Hl|]. split; [congruence|].
      split; [congruence|]. intros r c. rewrite Hp'. f_equal. lia.
Qed.

Lemma zeros_grid batch nslices :
  (0 ≤ nslices)%Z →
  Numpy.zeros ((Z.of_nat (dim2 batch) + 1) * nslices)
              ((Z.of_nat (dim3 batch) + 1) * nslices)
  = Some (Numpy.mkArray (Z.to_nat nslices * (dim2 batch + 1))
            (Z.to_nat nslices * (dim3 batch + 1)) (λ _ _, 0)).
Proof.
  intros Hn. unfold Numpy.zeros. rewrite decide_True by lia.
  do 2 f_equal; lia.
Qed.

Lemma set_slice_dims a r0 r1 c0 c1 v a' :
  Numpy.set_slice a r0 r1 c0 c1 v = Some a' →
  Numpy.height a' = Numpy.height a ∧ Numpy.width a' = Numpy.width a.
Proof.
  unfold Numpy.set_slice. cbv zeta. case_decide; [|done].
  by intros [= <-].
Qed.

Lemma plot_batch_tile_ok batch nslices b img :
  (0 < nslices)%Z →
  Numpy.height img = (Z.to_nat nslices * (dim2 batch + 1))%nat →
  Numpy.width img = (Z.to_nat nslices * (dim3 batch + 1))%nat →
  is_Some (plot_batch_tile batch nslices b img)
  ↔ (b < Z.to_nat nslices * Z.to_nat nslices ∨ dim2 batch ≤ 1)%nat.
Proof.
  intros Hn Hh Hw. rewrite plot_batch_tile_nat by done.
  set (n := Z.to_nat nslices). assert (Hn' : (0 < n)%nat) by lia.
  pose proof (Nat.div_mod_eq b n) as Eb.
  pose proof (Nat.mod_upper_bound b n ltac:(lia)) as Ub.
  unfold Numpy.set_slice. cbv zeta. rewrite Hh, Hw.
  change (size0 (sum_channels batch b)) with (dim2 batch).
  change (size1 (sum_channels batch b)) with (dim3 batch).
  destruct (decide (b / n < n)%nat) as [Hq|Hq].
  - assert (b < n * n)%nat by nia.
    rewrite decide_True; [split; [auto|by eexists]|].
    rewrite !Nat.min_l by nia. lia.
  - assert (¬ (b < n * n)%nat) by nia.
    rewrite (Nat.min_r (b / n * (dim2 batch + 1))) by nia.
    rewrite (Nat.min_r (b / n * (dim2 batch + 1) + dim2 batch)) by nia.
    rewrite !Nat.min_l by nia.
    case_decide as Hd.
    + split; [lia|by eexists].
    + split; [by intros [? [=]]|]. intros [?|?]; [lia|]. exfalso. lia.
Qed.

Lemma plot_loop_ok batch nslices m :
  (0 < nslices)%Z →
  ∀ k img,
    Numpy.height img = (Z.to_nat nslices * (dim2 batch + 1))%nat →
    Numpy.width img = (Z.to_nat nslices * (dim3 batch + 1))%nat →
    is_Some (for_each (seq k m) (plot_batch_tile batch nslices) img)
    ↔ ∀ b, (k ≤ b < k + m)%nat →
           (b < Z.to_nat nslices * Z.to_nat nslices ∨ dim2 batch ≤ 1)%nat.
Proof.
  intros Hn. induction m as [|m IH]; intros k img Hh Hw.
  - simpl. split; [intros _ b; lia|by eexists].
  - simpl.
    pose proof (plot_batch_tile_ok batch nslices k img Hn Hh Hw) as Hk.
    destruct (plot_batch_tile batch nslices k img) as [img1|] eqn:E1; simpl.
    + rewrite plot_batch_tile_nat in E1 by done.
      apply set_slice_dims in E1 as [Hh1 Hw1].
      rewrite IH by congruence. split.
      * intros Hall b Hb. destruct (decide (b = k)) as [->|];
          [apply Hk; by eexists|apply Hall; lia].
      * intros Hall b Hb. apply Hall. lia.
    + split; [by intros [? [=]]|]. intros Hall. apply Hk, Hall. lia.
Qed.

(** X19: [plot_batch] lays the images out in rows of [nslices], image [b] at
    tile [(b // nslices, b % nslices)], the channels of an image added up,
    and leaves every other pixel 0: the line after each tile and the tiles
    past the last image. *)
Theorem plot_batch_grid batch nslices :
  (0 < nslices)%Z →
  (dim0 batch ≤ Z.to_nat nslices * Z.to_nat nslices)%nat →
  ∃ img,
    plot_batch batch nslices = Some img
    ∧ Numpy.height img = (Z.to_nat nslices * (dim2 batch + 1))%nat
    ∧ Numpy.width img = (Z.to_nat nslices * (dim3 batch + 1))%nat
    ∧ (∀ b i j,
         (b < dim0 batch)%nat → (i < dim2 batch)%nat → (j < dim3 batch)%nat →
         Numpy.pixel img (b / Z.to_nat nslices * (dim2 batch + 1) + i)
                         (b mod Z.to_nat nslices * (dim3 batch + 1) + j)
         = vsum ((λ c, elem4 batch b c i j) <$> seq 0 (dim1 batch)))
    ∧ (∀ r c,
         (∀ b i j,
            (b < dim0 batch)%nat → (i < dim2 batch)%nat →
            (j < dim3 batch)%nat →
            r = (b / Z.to_nat nslices * (dim2 batch + 1) + i)%nat →
            c = (b mod Z.to_nat nslices * (dim3 batch + 1) + j)%nat → False) →
         Numpy.pixel img r c = 0).
Proof.
  intros Hn HB. unfold plot_batch. rewrite zeros_grid by lia. simpl.
  unfold range. rewrite Nat2Z.id.
  set (n := Z.to_nat nslices) in *. assert (Hn' : (0 < n)%nat) by lia.
  destruct (plot_loop_grid batch nslices (dim0 batch) Hn 0%nat
              (Numpy.mkArray (n * (dim2 batch + 1)) (n * (dim3 batch + 1))
                 (λ _ _, 0)))
    as (img & -> & Hh & Hw & Hp); [fold n; lia|done|done| |].
  { intros r c. unfold grid_pixel. cbv zeta. simpl.
    by rewrite decide_False by lia. }
  fold n in Hp. simpl in Hp.
  exists img. split; [done|]. split; [done|]. split; [done|]. split.
  - intros b i j Hb Hi Hj. rewrite Hp. unfold grid_pixel. cbv zeta.
    pose proof (Nat.div_mod_eq b n) as Eb.
    pose proof (Nat.mod_upper_bound b n ltac:(lia)) as Ub.
    destruct (in_tile_iff (dim2 batch) (b / n)
                (b / n * (dim2 batch + 1) + i)) as [[Er1 Er2] _]; [lia|].
    destruct (in_tile_iff (dim3 batch) (b mod n)
                (b mod n * (dim3 batch + 1) + j)) as [[Ec1 Ec2] _]; [lia|].
    pose proof (Nat.div_mod_eq (b / n * (dim2 batch + 1) + i)
                  (dim2 batch + 1)) as Er.
    pose proof (Nat.div_mod_eq (b mod n * (dim3 batch + 1) + j)
                  (dim3 batch + 1)) as Ec.
    rewrite Er1, Ec1 in *.
    replace (b / n * n + b mod n)%nat with b by lia.
    rewrite decide_True by lia. simpl.
    replace ((b / n * (dim2 batch + 1) + i) mod (dim2 batch + 1))%nat
      with i by nia.
    replace ((b mod n * (dim3 batch + 1) + j) mod (dim3 batch + 1))%nat
      with j by nia.
    done.
  - intros r c Hno. rewrite Hp. unfold grid_pixel. cbv zeta.
    case_decide as Hd; [|done]. exfalso.
    destruct Hd as (H1 & H2 & H3 & H4).
    pose proof (Nat.div_mod_eq r (dim2 batch + 1)) as Er.
    pose proof (Nat.div_mod_eq c (dim3 batch + 1)) as Ec.
    destruct (tile_index_unique n (r / (dim2 batch + 1))
                (c / (dim3 batch + 1))
                (r / (dim2 batch + 1) * n + c / (dim3 batch + 1)) H3)
      as [[E1 E2] _]; [done|].
    apply (Hno (r / (dim2 batch + 1) * n + c / (dim3 batch + 1))%nat
             (r mod (dim2 batch + 1))%nat (c mod (dim3 batch + 1))%nat);
      [lia|done|done|rewrite <- E1; lia|rewrite <- E2; lia].
Qed.

Lemma plot_batch_grid_witness :
  ∃ img,
    plot_batch Fixture.images 2 = Some img
    ∧ Numpy.height img = (Z.to_nat 2 * (dim2 Fixture.images + 1))%nat
    ∧ Numpy.width img = (Z.to_nat 2 * (dim3 Fixture.images + 1))%nat
    ∧ (∀ b i j,
         (b < dim0 Fixture.images)%nat → (i < dim2 Fixture.images)%nat →
         (j < dim3 Fixture.images)%nat →
         Numpy.pixel img (b / Z.to_nat 2 * (dim2 Fixture.images + 1) + i)
                         (b mod Z.to_nat 2 * (dim3 Fixture.images + 1) + j)
         = vsum ((λ c, elem4 Fixture.images b c i j)
                   <$> seq 0 (dim1 Fixture.images)))
    ∧ (∀ r c,
         (∀ b i j,
            (b < dim0 Fixture.images)%nat → (i < dim2 Fixture.images)%nat →
            (j < dim3 Fixture.images)%nat →
            r = (b / Z.to_nat 2 * (dim2 Fixture.images + 1) + i)%nat →
            c = (b mod Z.to_nat 2 * (dim3 Fixture.images + 1) + j)%nat →
            False) →
         Numpy.pixel img r c = 0).
Proof.
  apply (plot_batch_grid Fixture.images 2).
  - lia.
  - simpl. lia.
Defined.

(** X20: building the image of [plot_batch] raises exactly when [nslices] is
    negative, when it is 0 and the batch has an image, or when the batch has
    more than [nslices * nslices] images of two rows or more. *)
Theorem plot_batch_error batch nslices :
  plot_batch batch nslices = None
  ↔ (nslices < 0)%Z
    ∨ (nslices = 0%Z ∧ (0 < dim0 batch)%nat)
    ∨ ((0 < nslices)%Z
       ∧ (Z.to_nat nslices * Z.to_nat nslices < dim0 batch)%nat
       ∧ (2 ≤ dim2 batch)%nat).
Proof.
  unfold plot_batch.
  destruct (decide (nslices < 0)%Z) as [Hneg|Hnn].
  - unfold Numpy.zeros. rewrite decide_False by nia. simpl.
    split; [auto|done].
  - rewrite zeros_grid by lia. simpl. unfold range. rewrite Nat2Z.id.
    destruct (decide (nslices = 0)%Z) as [->|Hnz].
    + destruct (dim0 batch) as [|B].
      * simpl. split; [done|]. intros [?|[[_ ?]|[? _]]]; lia.
      * change (for_each (seq 0 (S B)) (plot_batch_tile batch 0)
                  (Numpy.mkArray (Z.to_nat 0 * (dim2 batch + 1))
                     (Z.to_nat 0 * (dim3 batch + 1)) (λ _ _, 0)))
          with (@None Numpy.ndarray).
        split; [intros _; right; left; split; [done|lia]|done].
    + assert (Hn : (0 < nslices)%Z) by lia.
      pose proof (plot_loop_ok batch nslices (dim0 batch) Hn 0%nat
                    (Numpy.mkArray (Z.to_nat nslices * (dim2 batch + 1))
                       (Z.to_nat nslices * (dim3 batch + 1)) (λ _ _, 0))
                    eq_refl eq_refl) as Hok.
      rewrite eq_None_not_Some, Hok. split.
      * intros Hnot. right. right. split; [done|].
        destruct (decide (Z.to_nat nslices * Z.to_nat nslices
                          < dim0 batch)%nat) as [HB|HB];
          [destruct (decide (2 ≤ dim2 batch)%nat) as [HH|HH]|].
        -- done.
        -- exfalso. apply Hnot. intros b _. right. lia.
        -- exfalso. apply Hnot. intros b Hb. left. lia.
      * intros [?|[[? _]|(_ & HB & HH)]]; [lia..|]. intros Hall.
        destruct (Hall (Z.to_nat nslices * Z.to_nat nslices)%nat); lia.
Qed.

(** ** The reconstruction error *)

Lemma clamp_log_range p : p <= 1 → -100 <= F.clamp_log p <= 0.
Proof.
  intros Hp. unfold F.clamp_log. destruct (Rle_dec p 0) as [|Hp0]; [lra|].
  assert (Hl : ln p <= 0).
  { destruct (Req_dec p 1) as [->|Hne]; [rewrite ln_1; lra|].
    rewrite <- ln_1. left. apply ln_increasing; lra. }
  unfold Rmax. destruct (Rle_dec (ln p) (-100)); lra.
Qed.

Lemma clamp_log_neg p : p < 1 → F.clamp_log p < 0.
Proof.
  intros Hp. unfold F.clamp_log. destruct (Rle_dec p 0) as [|Hp0]; [lra|].
  assert (Hl : ln p < 0) by (rewrite <- ln_1; apply ln_increasing; lra).
  unfold Rmax. destruct (Rle_dec (ln p) (-100)); lra.
Qed.

Lemma clamp_log_1 : F.clamp_log 1 = 0.
Proof.
  unfold F.clamp_log. destruct (Rle_dec 1 0) as [|_]; [lra|].
  rewrite ln_1. unfold Rmax. destruct (Rle_dec 0 (-100)); lra.
Qed.

Lemma bce_term_range t p :
  0 <= t <= 1 → 0 <= p <= 1 →
  0 <= (t - 1) * F.clamp_log (1 - p) - t * F.clamp_log p <= 100.
Proof.
  intros Ht Hp.
  pose proof (clamp_log_range p ltac:(lra)).
  pose proof (clamp_log_range (1 - p) ltac:(lra)).
  split; nra.
Qed.

Lemma bce_term_zero t :
  0 <= t <= 1 →
  (t - 1) * F.clamp_log (1 - t) - t * F.clamp_log t = 0 ↔ t = 0 ∨ t = 1.
Proof.
  intros Ht. split.
  - intros E. destruct (Req_dec t 0) as [|H0]; [by left|].
    destruct (Req_dec t 1) as [|H1]; [by right|]. exfalso.
    pose proof (clamp_log_neg t ltac:(lra)).
    pose proof (clamp_log_neg (1 - t) ltac:(lra)). nra.
  - intros [->| ->].
    + rewrite Rminus_0_r, clamp_log_1. ring.
    + replace (1 - 1) with 0 by ring. rewrite clamp_log_1. ring.
Qed.

Lemma vsum_bounds (a b : R) (v : list R) :
  Forall (λ x, a <= x <= b) v →
  a * INR (length v) <= vsum v <= b * INR (length v).
Proof.
  unfold vsum. induction 1 as [|x v Hx Hv IH].
  - simpl. lra.
  - rewrite length_cons, S_INR. simpl. lra.
Qed.

Lemma vsum_seq_bounds (a b : R) (f : nat → R) (n : nat) :
  (∀ i, (i < n)%nat → a <= f i <= b) →
  a * INR n <= vsum (f <$> seq 0 n) <= b * INR n.
Proof.
  intros H. pose proof (vsum_bounds a b (f <$> seq 0 n)) as Hb.
  rewrite length_fmap, length_seq in Hb. apply Hb.
  apply Forall_fmap, Forall_forall. intros i Hi. apply elem_of_seq in Hi.
  simpl. apply H. lia.
Qed.

Lemma vsum_nonneg_zero (v : list R) :
  Forall (λ x, 0 <= x) v → vsum v = 0 → Forall (λ x, x = 0) v.
Proof.
  unfold vsum. induction 1 as [|x v Hx Hv IH]; simpl; [done|].
  intros E.
  assert (0 <= foldr Rplus 0 v).
  { clear -Hv. induction Hv; simpl; lra. }
  constructor; [lra|]. apply IH. lra.
Qed.

Lemma in_unit_elem t :
  Forall (Forall (λ p, 0 <= p <= 1)) (tolist t)
  ↔ ∀ i j, (i < size0 t)%nat → (j < size1 t)%nat → 0 <= elem t i j <= 1.
Proof.
  unfold tolist, row. rewrite Forall_fmap, Forall_forall. split.
  - intros H i j Hi Hj. specialize (H i). simpl in H.
    rewrite Forall_fmap, Forall_forall in H.
    apply H; apply elem_of_seq; lia.
  - intros H i Hi. simpl. rewrite Forall_fmap, Forall_forall. intros j Hj.
    apply elem_of_seq in Hi, Hj. apply H; lia.
Qed.


Lemma binary_cross_entropy_Some input target :
  shape input = shape target →
  (∀ i j, (i < size0 input)%nat → (j < size1 input)%nat →
          0 <= elem input i j <= 1) →
  F.binary_cross_entropy input target
  = Some (mkTensor (size0 input) (size1 input)
            (λ i j, (elem target i j - 1) * F.clamp_log (1 - elem input i j)
                    - elem target i j * F.clamp_log (elem input i j))).
Proof.
  intros Hs Hu. unfold F.binary_cross_entropy.
  rewrite decide_True; [done|]. split; [done|]. by apply in_unit_elem.
Qed.

(** X21: for a batch that is not empty, a reconstruction with elements between 0
    and 1 and a target with elements between 0 and 1, the averaged binary
    reconstruction loss is a number between 0 and 100 times the count of
    features. *)
Theorem reconstruction_loss_range
    (multinomial_loss : Tensor → Tensor → option Tensor)
    (x_tilde x : Tensor) (batch_size n : nat) :
  shape x_tilde = (batch_size, n) → shape x = (batch_size, n) →
  (0 < batch_size)%nat →
  (∀ i j, (i < batch_size)%nat → (j < n)%nat → 0 <= elem x_tilde i j <= 1) →
  (∀ i j, (i < batch_size)%nat → (j < n)%nat → 0 <= elem x i j <= 1) →
  ∃ v, reconstruction_loss multinomial_loss x_tilde x 1 true
       = Some (Torch.tensor1 [v])
       ∧ 0 <= v <= 100 * INR n.
Proof.
  intros Hst Hsx HB Hut Hux.
  pose proof (shape_inv _ _ _ Hst) as [Ht0 Ht1].
  pose proof (shape_inv _ _ _ Hsx) as [Hx0 Hx1].
  unfold reconstruction_loss, view_rows.
  rewrite decide_True by done. rewrite decide_False by lia. simpl.
  unfold binary_loss. rewrite binary_cross_entropy_Some;
    [|congruence|rewrite Ht0, Ht1; exact Hut].
  simpl. eexists. split; [reflexivity|].
  rewrite sum_sum_over. unfold Spec.sum_over, sum_dim0, col. simpl.
  rewrite Rplus_0_r, Ht0, Ht1, Hx0.
  match goal with
  | |- _ <= vsum (?f <$> seq 0 n) / _ <= _ =>
      destruct (vsum_seq_bounds 0 (100 * INR batch_size) f n) as [H1 H2]
  end.
  { intros j Hj. rewrite <- (Rmult_0_l (INR batch_size)).
    apply vsum_seq_bounds. intros i Hi.
    apply bce_term_range; [by apply Hux|by apply Hut]. }
  rewrite Rmult_0_l in H1.
  assert (HB' : 0 < INR batch_size) by (apply lt_0_INR; lia).
  split.
  - apply Rmult_le_pos; [exact H1|]. left. by apply Rinv_0_lt_compat.
  - apply Rmult_le_reg_r with (INR batch_size); [exact HB'|].
    unfold Rdiv. rewrite Rmult_assoc, Rinv_l by lra. lra.
Qed.

Lemma reconstruction_loss_range_witness :
  ∃ v, reconstruction_loss (λ _ _, None) Fixture.pixels Fixture.pixels 1 true
       = Some (Torch.tensor1 [v])
       ∧ 0 <= v <= 100 * INR 2.
Proof.
  apply (reconstruction_loss_range (λ _ _, None) Fixture.pixels
           Fixture.pixels 2 2).
  - reflexivity.
  - reflexivity.
  - lia.
  - intros [|[|i]] [|[|j]] Hi Hj; simpl; try lia; lra.
  - intros [|[|i]] [|[|j]] Hi Hj; simpl; try lia; lra.
Defined.

(** X22: the binary loss of a perfect reconstruction is not 0 in general: for a
    target with elements between 0 and 1, [binary_loss(x, x)] is 0 for every
    feature exactly when every element of [x] is 0 or 1. *)
Theorem binary_loss_perfect (x : Tensor) :
  (∀ i j, (i < size0 x)%nat → (j < size1 x)%nat → 0 <= elem x i j <= 1) →
  ∃ l, binary_loss x x = Some l
       ∧ shape l = (1%nat, size1 x)
       ∧ ((∀ j, (j < size1 x)%nat → elem l 0 j = 0)
          ↔ ∀ i j, (i < size0 x)%nat → (j < size1 x)%nat →
              elem x i j = 0 ∨ elem x i j = 1).
Proof.
  intros Hu. unfold binary_loss.
  rewrite binary_cross_entropy_Some by done. simpl.
  eexists. split; [reflexivity|]. split; [done|].
  unfold sum_dim0, col. simpl.
  set (term := λ i j, (elem x i j - 1) * F.clamp_log (1 - elem x i j)
                      - elem x i j * F.clamp_log (elem x i j)).
  split.
  - intros Hz i j Hi Hj. apply bce_term_zero; [by apply Hu|].
    pose proof (vsum_nonneg_zero ((λ i, term i j) <$> seq 0 (size0 x))) as H.
    rewrite !Forall_fmap, !Forall_forall in H.
    apply (H (λ i' Hi', proj1 (bce_term_range _ _
             (Hu i' j (proj2 (proj1 (elem_of_seq _ _ _) Hi')) Hj)
             (Hu i' j (proj2 (proj1 (elem_of_seq _ _ _) Hi')) Hj)))
             (Hz j Hj) i).
    apply elem_of_seq. lia.
  - intros Hb j Hj.
    rewrite (fmap_seq_ext _ (λ _, 0)); [apply vsum_zeros|].
    intros i Hi. apply bce_term_zero; [by apply Hu|by apply Hb].
Qed.

Lemma binary_loss_perfect_witness :
  ∃ l, binary_loss Fixture.pixels Fixture.pixels = Some l
       ∧ shape l = (1%nat, size1 Fixture.pixels)
       ∧ ((∀ j, (j < size1 Fixture.pixels)%nat → elem l 0 j = 0)
          ↔ ∀ i j, (i < size0 Fixture.pixels)%nat →
              (j < size1 Fixture.pixels)%nat →
              elem Fixture.pixels i j = 0 ∨ elem Fixture.pixels i j = 1).
Proof.
  apply (binary_loss_perfect Fixture.pixels).
  intros [|[|i]] [|[|j]] Hi Hj; simpl in *; try lia; lra.
Defined.

